(** * prebuilt.py: uploading prebuilts and keeping the binhost config in sync

    A shallow embedding of [src/prebuilt.py] and the properties its
    specification states about it.

    - Python 2 byte strings are lists of 8-bit characters ([str]).
    - The string methods the script calls ([split], [join], [rstrip],
      [startswith], ...) and the pieces of [os.path] and [re] it relies on
      are written out in [Module Py], following the behaviour of the Python
      2 library.
    - The script's functions that touch the outside world (files, the
      working directory, commands run through [cros_build_lib.RunCommand],
      [time.sleep]) live in a state-and-exception monad [M] over a [World];
      the outcome of every external command is decided by an arbitrary
      environment that sees the whole history of events.
    - Text written with [print] is not modelled, and exceptions carry their
      class only, not their message. *)

From Stdlib Require Import Ascii String ZArith Lia.
From stdpp Require Import gmap strings list.

Open Scope string_scope.
Open Scope list_scope.

(** A Python 2 [str]: a sequence of bytes. *)
Abbreviation str := (list ascii).

(** String literals are read as [str] where one is expected. *)
Coercion list_ascii_of_string : string >-> list.

(** ** The Python library functions the script uses *)
Module Py.

Definition NL : ascii := "010"%char.

(** [a == b] on strings, as a boolean. *)
Definition eqs (a b : str) : bool := bool_decide (a = b).

(** [s.split(sep)] for a one-character separator: one more part than there
    are separators, and [['']] for the empty string. *)
Fixpoint split (sep : ascii) (s : str) : list str :=
  match s with
  | [] => [[]]
  | c :: s' =>
      if bool_decide (c = sep) then [] :: split sep s'
      else match split sep s' with
           | [] => [[c]]
           | p :: ps => (c :: p) :: ps
           end
  end.

(** [s.split(sep, 1)]: cut at the first separator only. *)
Fixpoint split1 (sep : ascii) (s : str) : list str :=
  match s with
  | [] => [[]]
  | c :: s' =>
      if bool_decide (c = sep) then [[]; s']
      else match split1 sep s' with
           | [] => [[c]]
           | p :: ps => (c :: p) :: ps
           end
  end.

(** [sep.join(parts)]. *)
Fixpoint join (sep : str) (parts : list str) : str :=
  match parts with
  | [] => []
  | [p] => p
  | p :: ps => p ++ sep ++ join sep ps
  end.

(** [s.rstrip(ch)] for a one-character argument: drop every trailing [ch]. *)
Fixpoint rstrip (ch : ascii) (s : str) : str :=
  match s with
  | [] => []
  | c :: s' =>
      match rstrip ch s' with
      | [] => if bool_decide (c = ch) then [] else [c]
      | r => c :: r
      end
  end.

(** Iterating over an open file: the lines of the contents, each with its
    terminating newline, the last one possibly without. *)
Fixpoint readlines (s : str) : list str :=
  match s with
  | [] => []
  | c :: s' =>
      if bool_decide (c = NL) then [c] :: readlines s'
      else match readlines s' with
           | [] => [[c]]
           | l :: ls => (c :: l) :: ls
           end
  end.

(** [s.startswith(p)]. *)
Fixpoint startswith (p s : str) : bool :=
  match p, s with
  | [], _ => true
  | _ :: _, [] => false
  | a :: p', b :: s' => bool_decide (a = b) && startswith p' s'
  end.

(** [s.endswith(p)]. *)
Definition endswith (p s : str) : bool := startswith (rev p) (rev s).

(** [p in s]: [p] occurs in [s] as a substring. *)
Fixpoint contains (p s : str) : bool :=
  startswith p s ||
  match s with
  | [] => false
  | _ :: s' => contains p s'
  end.

(** [s.replace(a, b)] for one-character [a] and [b]. *)
Definition replace (a b : ascii) (s : str) : str :=
  map (fun c => if bool_decide (c = a) then b else c) s.

(** [range(lo, hi)]. *)
Definition range (lo hi : Z) : list Z :=
  map (fun i => lo + Z.of_nat i)%Z (seq 0 (Z.to_nat (hi - lo))).

(** *** [os.path] (posixpath) *)

(** One step of [os.path.join]: an absolute component restarts the path. *)
Definition path_join2 (path b : str) : str :=
  if startswith "/" b then b
  else if eqs path [] || endswith "/" path then path ++ b
  else path ++ "/" ++ b.

(** [os.path.join(a, *p)]. *)
Definition path_join (a : str) (p : list str) : str := fold_left path_join2 p a.

(** The part of [s] after its last slash, and the part up to and including
    it: [posixpath.split] before the head is stripped. *)
Fixpoint rsplit_slash (s : str) : str * str :=
  match s with
  | [] => ([], [])
  | c :: s' =>
      let '(head, tail) := rsplit_slash s' in
      if bool_decide (c = "/"%char) then
        match head with
        | [] => ([c], s')
        | _ => (c :: head, tail)
        end
      else
        match head with
        | [] => ([], c :: tail)
        | _ => (c :: head, tail)
        end
  end.

(** [os.path.basename(p)]. *)
Definition basename (p : str) : str := snd (rsplit_slash p).

(** [os.path.dirname(p)]: the head without its trailing slashes, unless it
    consists of slashes only. *)
Definition dirname (p : str) : str :=
  let head := fst (rsplit_slash p) in
  if forallb (fun c => bool_decide (c = "/"%char)) head then head
  else rstrip "/" head.

(** *** [re]: the fragment of regular expressions the script uses

    Every pattern of the script is a sequence of character classes, each
    taken once or under a quantifier. [re.match] anchors the pattern at the
    start of the string and tries the alternatives in the order of Python's
    backtracking matcher, so that a lazy quantifier takes the shortest text
    and a greedy one the longest for which the rest of the pattern matches. *)

Inductive cls : Type :=
  | Dot                 (* .   any character but a newline *)
  | Lit (c : ascii)     (* a literal character *)
  | Digit               (* \d  [0-9] *)
  | Word.               (* \w  [a-zA-Z0-9_] *)

Inductive quant : Type :=
  | One                 (* no quantifier *)
  | Star                (* *   greedy *)
  | StarLazy            (* *?  lazy *)
  | Plus.               (* +   greedy *)

Definition regex : Type := list (cls * quant).

Definition between (lo hi c : ascii) : bool :=
  (N.leb (N_of_ascii lo) (N_of_ascii c)) && (N.leb (N_of_ascii c) (N_of_ascii hi)).

Definition is_digit (c : ascii) : bool := between "0" "9" c.

Definition is_word (c : ascii) : bool :=
  between "a" "z" c || between "A" "Z" c || is_digit c || bool_decide (c = "_"%char).

Definition cls_ok (k : cls) (c : ascii) : bool :=
  match k with
  | Dot => negb (bool_decide (c = NL))
  | Lit a => bool_decide (c = a)
  | Digit => is_digit c
  | Word => is_word c
  end.

(** [greedy k rest s]: let class [k] take as many characters of [s] as it
    can, giving back one at a time until [rest] matches what follows. The
    result is the text taken by [k] and what [rest] returned. *)
Fixpoint greedy {A} (k : cls) (rest : str -> option A) (s : str) : option (str * A) :=
  match s with
  | c :: s' =>
      if cls_ok k c then
        match greedy k rest s' with
        | Some (t, r) => Some (c :: t, r)
        | None => option_map (pair []) (rest s)
        end
      else option_map (pair []) (rest s)
  | [] => option_map (pair []) (rest s)
  end.

(** [lazy k rest s]: let class [k] take as few characters as it can. *)
Fixpoint lazy {A} (k : cls) (rest : str -> option A) (s : str) : option (str * A) :=
  match rest s with
  | Some r => Some ([], r)
  | None =>
      match s with
      | c :: s' =>
          if cls_ok k c then
            match lazy k rest s' with
            | Some (t, r) => Some (c :: t, r)
            | None => None
            end
          else None
      | [] => None
      end
  end.

(** [re.match(r, s)]: [None] when the pattern does not match at the start of
    [s], otherwise the text each item of the pattern matched, in order. *)
Fixpoint re_match (r : regex) (s : str) : option (list str) :=
  match r with
  | [] => Some []
  | (k, q) :: r' =>
      let cons_text (x : str * list str) := fst x :: snd x in
      match q with
      | One =>
          match s with
          | c :: s' => if cls_ok k c then option_map (cons [c]) (re_match r' s') else None
          | [] => None
          end
      | Star => option_map cons_text (greedy k (re_match r') s)
      | StarLazy => option_map cons_text (lazy k (re_match r') s)
      | Plus =>
          match s with
          | c :: s' =>
              if cls_ok k c then
                option_map (fun x => (c :: fst x) :: snd x) (greedy k (re_match r') s')
              else None
          | [] => None
          end
      end
  end.

(** The items of a pattern that match a literal text. *)
Definition lits (s : str) : regex := map (fun c => (Lit c, One)) s.

End Py.

Import Py.

(** ** Module constants *)

Definition DQ : ascii := "034"%char.

(** ['"%s"' % value] *)
Definition quoted (value : str) : str := [DQ] ++ value ++ [DQ].

Definition _RETRIES : Z := 3.
Definition _GSUTIL_BIN : str := "/b/third_party/gsutil/gsutil".
Definition _HOST_PACKAGES_PATH : str := "chroot/var/lib/portage/pkgs".
Definition _HOST_TARGET : str := "amd64".
(** ['chroot/build/%(board)s'] *)
Definition _BOARD_PATH (board : str) : str := "chroot/build/" ++ board.
Definition _BOTO_CONFIG : str := "/home/chrome-bot/external-boto".
(** ['board/%(board)s/%(version)s/packages'] *)
Definition _REL_BOARD_PATH (board version : str) : str :=
  "board/" ++ board ++ "/" ++ version ++ "/packages".
(** ['host/%(target)s/%(version)s/packages'] *)
Definition _REL_HOST_PATH (target version : str) : str :=
  "host/" ++ target ++ "/" ++ version ++ "/packages".
Definition _PRIVATE_OVERLAY_DIR : str := "src/private-overlays".
Definition _BINHOST_BASE_DIR : str := "src/overlays".
Definition _BINHOST_BASE_URL : str :=
  "http://commondatastorage.googleapis.com/chromeos-prebuilt".
Definition _PREBUILT_BASE_DIR : str :=
  "src/third_party/chromiumos-overlay/chromeos/config/".
(** The dictionary has the single key ['amd64']. *)
Definition _PREBUILT_MAKE_CONF (target : str) : option str :=
  if eqs target "amd64"
  then Some (path_join _PREBUILT_BASE_DIR ["make.conf.amd64-host" : str])
  else None.
Definition _BINHOST_CONF_DIR : str :=
  "src/third_party/chromiumos-overlay/chromeos/binhost".

(** ** Exceptions *)

Inductive Exc : Type :=
  | FiltersEmpty          (* filters are used but none are found *)
  | UploadFailed          (* one of the files uploaded failed *)
  | UnknownBoardFormat    (* an unknown board format *)
  | GitPushFailed         (* a git push failed after retry *)
  | RunCommandError       (* cros_build_lib: the command exited non-zero *)
  | IOError               (* open() of a file that does not exist *)
  | OSError               (* os.chdir to the empty path *)
  | KeyError              (* a dictionary without the key *)
  | AssertionError
  | TypeError             (* a format string applied to None *)
  | ValueError            (* unpacking a list of the wrong length *)
  | SystemExit (code : Z).

Global Instance Exc_eq_dec : EqDecision Exc.
Proof. solve_decision. Defined.

(** ** [UpdateLocalFile]: the text of the rewritten file *)

(** ['%(key)s=%(value)s'] *)
Definition keyval_str (key value : str) : str := key ++ "=" ++ value.

(** The [for line in file_fh] loop of [UpdateLocalFile] with the statements
    that follow it up to the last [append]: [lines] are the lines still to
    be read, [found] and [value] the variables of these names, and the
    result is what is appended to [file_lines] from here on. *)
Fixpoint UpdateLocalFile_loop (key : str) (lines : list str) (found : bool)
    (value : str) : list str :=
  match lines with
  | [] =>
      if negb found then [keyval_str key value] else []
  | line :: lines' =>
      let line := rstrip NL line in
      match split "=" line with
      | [file_var; file_val] =>
          if eqs file_var key then
            let value := quoted value in
            keyval_str key value :: UpdateLocalFile_loop key lines' true value
          else
            keyval_str file_var file_val :: UpdateLocalFile_loop key lines' found value
      | _ =>
          (* Skip any line that doesn't fit key=val. *)
          line :: UpdateLocalFile_loop key lines' found value
      end
  end.

(** [file_lines] when the loop is over, and the string that is written. *)
Definition UpdateLocalFile_lines (contents value key : str) : list str :=
  UpdateLocalFile_loop key (readlines contents) false value.

Definition UpdateLocalFile_text (contents value key : str) : str :=
  join [NL] (UpdateLocalFile_lines contents value key) ++ [NL].

(** ** [DetermineMakeConfFile] *)

(** ['.*?_.*'] *)
Definition variant_re : regex := [(Dot, StarLazy); (Lit "_", One); (Dot, Star)].
(** ['.*?-\w+'] *)
Definition overlay_re : regex := [(Dot, StarLazy); (Lit "-", One); (Word, Plus)].

Definition DetermineMakeConfFile (target : str) : Exc + str :=
  if eqs _HOST_TARGET target then
    (* We are host. *)
    match _PREBUILT_MAKE_CONF target with
    | Some make_path => inr (path_join make_path [])
    | None => inl KeyError
    end
  else if bool_decide (is_Some (re_match variant_re target)) then
    (* We are a board variant *)
    let overlay_str := "overlay-variant-" ++ replace "_" "-" target in
    let make_path := path_join _BINHOST_BASE_DIR [overlay_str; "make.conf" : str] in
    inr (path_join make_path [])
  else if bool_decide (is_Some (re_match overlay_re target)) then
    let overlay_str := "overlay-" ++ target in
    let make_path := path_join _BINHOST_BASE_DIR [overlay_str; "make.conf" : str] in
    inr (path_join make_path [])
  else
    inl UnknownBoardFormat.

(** ** The world outside the script *)

(** What the script does to the outside, newest event first in a trace. *)
Inductive Event : Type :=
  | Ran (cmd : str) (cwd : option str) (ok : bool)
      (* cros_build_lib.RunCommand(cmd, cwd=cwd) and whether it succeeded *)
  | Slept (secs : Z)                  (* time.sleep(secs) *)
  | Fetched (url : str).              (* GrabRemotePackageIndex(url) *)

Global Instance Event_eq_dec : EqDecision Event.
Proof. solve_decision. Defined.

Record World : Type := mkWorld {
  files : gmap str str;             (* text files, by absolute path *)
  dirs : gset str;                  (* directories created by the script *)
  cwd : str;                        (* the working directory of the process *)
  environ : gmap str str;           (* os.environ *)
  _FILTER_PACKAGES : gset str;      (* the module's global filter set *)
  trace : list Event
}.

(** The functions of [chromite.lib.binpkg] the script calls. Their code is
    not part of [prebuilt.py]; the index is an abstract value that they
    transform, and [CPV pkg] is [pkg['CPV']]. *)
Class Binpkg : Type := {
  PackageIndex : Type;
  Pkg : Type;
  CPV : Pkg -> str;
  GrabLocalPackageIndex : str -> PackageIndex;
  GrabRemotePackageIndex : str -> option PackageIndex;
  SetUploadLocation : str -> str -> PackageIndex -> PackageIndex;
  RemoveFilteredPackages : (str -> bool) -> PackageIndex -> PackageIndex;
  ResolveDuplicateUploads : list PackageIndex -> PackageIndex -> PackageIndex * list Pkg;
  (* the name of the temporary file the index is written to *)
  WriteToNamedTemporaryFile : PackageIndex -> str
}.

(** What the script does not decide: whether a command succeeds (given the
    world it runs in, its text and its [cwd] argument), the files under a
    directory, which paths exist, [os.path.normpath], and the current time
    as formatted by [GetVersion]. Commands are assumed not to change the
    text files of the model. *)
Record Env : Type := {
  command_succeeds : World -> str -> option str -> bool;
  ListFiles : str -> list str;
  path_exists : str -> bool;
  normpath : str -> str;
  timestamp : str
}.

(** ** The monad of the script: state and exceptions *)

Definition M (A : Type) : Type := World -> (Exc + A) * World.

Global Instance M_ret : MRet M := fun A (a : A) (w : World) => (inr a, w).

Global Instance M_bind : MBind M := fun A B (k : A -> M B) (c : M A) (w : World) =>
  match c w with
  | (inl e, w') => (inl e, w')
  | (inr a, w') => k a w'
  end.

(** [raise e] *)
Definition raise {A} (e : Exc) : M A := fun w => (inl e, w).

(** [try: body / except exc: handler] *)
Definition try_except {A} (body : M A) (exc : Exc) (handler : M A) : M A := fun w =>
  match body w with
  | (inl e, w') => if bool_decide (e = exc) then handler w' else (inl e, w')
  | r => r
  end.

(** [try: body / finally: cleanup]: the cleanup always runs; an exception
    of the cleanup replaces the outcome of the body. *)
Definition try_finally {A} (body : M A) (cleanup : M unit) : M A := fun w =>
  match body w with
  | (r, w') =>
      match cleanup w' with
      | (inl e, w'') => (inl e, w'')
      | (inr _, w'') => (r, w'')
      end
  end.

(** [if cond: body] *)
Definition when (cond : bool) (body : M unit) : M unit :=
  if cond then body else mret tt.

Definition get : M World := fun w => (inr w, w).

Definition log (e : Event) : M unit := fun w =>
  (inr tt, mkWorld (files w) (dirs w) (cwd w) (environ w) (_FILTER_PACKAGES w) (e :: trace w)).

Definition set_files (f : gmap str str) : M unit := fun w =>
  (inr tt, mkWorld f (dirs w) (cwd w) (environ w) (_FILTER_PACKAGES w) (trace w)).

Definition set_dirs (d : gset str) : M unit := fun w =>
  (inr tt, mkWorld (files w) d (cwd w) (environ w) (_FILTER_PACKAGES w) (trace w)).

Definition set_cwd (d : str) : M unit := fun w =>
  (inr tt, mkWorld (files w) (dirs w) d (environ w) (_FILTER_PACKAGES w) (trace w)).

Definition set_environ (e : gmap str str) : M unit := fun w =>
  (inr tt, mkWorld (files w) (dirs w) (cwd w) e (_FILTER_PACKAGES w) (trace w)).

Definition set_filter_packages (s : gset str) : M unit := fun w =>
  (inr tt, mkWorld (files w) (dirs w) (cwd w) (environ w) s (trace w)).

(** [map f xs] where [f] has effects, in the order of the list. *)
Fixpoint mapM {A B} (f : A -> M B) (xs : list A) : M (list B) :=
  match xs with
  | [] => mret []
  | x :: xs' => y ← f x; ys ← mapM f xs'; mret (y :: ys)
  end.

(** [for x in xs: body(x)] *)
Fixpoint forM {A} (xs : list A) (body : A -> M unit) : M unit :=
  match xs with
  | [] => mret tt
  | x :: xs' => body x;; forM xs' body
  end.

Section Prebuilt.

Context {binpkg : Binpkg} (env : Env).

(** *** Files, directories and commands *)

(** [os.path.abspath(path)] *)
Definition abspath (path : str) : M str :=
  w ← get; mret (normpath env (path_join (cwd w) [path])).

(** [os.getcwd()] *)
Definition getcwd : M str := w ← get; mret (cwd w).

(** [os.chdir(path)]; only the empty path is refused, the directories that
    exist are not part of the model. *)
Definition chdir (path : str) : M unit :=
  if eqs path [] then raise OSError
  else d ← abspath path; set_cwd d.

(** [open(path).read()] *)
Definition read_file (path : str) : M str :=
  p ← abspath path;
  w ← get;
  match files w !! p with
  | Some contents => mret contents
  | None => raise IOError
  end.

(** [open(path, 'w').write(contents)]; the path is taken to name a file that
    can be written: that it may name a directory is not part of the
    model. *)
Definition write_file (path contents : str) : M unit :=
  p ← abspath path;
  w ← get;
  set_files (<[p := contents]> (files w)).

(** [os.path.isfile(path)] *)
Definition isfile (path : str) : M bool :=
  p ← abspath path; w ← get; mret (bool_decide (is_Some (files w !! p))).

(** [os.path.isdir(path)] *)
Definition isdir (path : str) : M bool :=
  p ← abspath path; w ← get; mret (bool_decide (p ∈ dirs w)).

(** [os.makedirs(path)]; the ancestors of [path] are not recorded, and that
    one of them may be a regular file is not part of the model. *)
Definition makedirs (path : str) : M unit :=
  p ← abspath path; w ← get; set_dirs ({[p]} ∪ dirs w).

(** [cros_build_lib.RunCommand(cmd, cwd=cwd)]: raises [RunCommandError]
    when the command fails. *)
Definition RunCommand (cmd : str) (cwd : option str) : M unit :=
  w ← get;
  let ok := command_succeeds env w cmd cwd in
  log (Ran cmd cwd ok);;
  if ok then mret tt else raise RunCommandError.

(** [time.sleep(secs)] *)
Definition sleep (secs : Z) : M unit := log (Slept secs).

(** *** [UpdateLocalFile] *)

Definition UpdateLocalFile (filename value key : str) : M unit :=
  contents ← read_file filename;
  write_file filename (UpdateLocalFile_text contents value key).

(** *** [RevGitPushWithRetry] *)

(** The [for retry in range(1, retries+1)] loop with its [else] clause;
    [rs] are the values of [retry] still to come. *)
Fixpoint RevGitPushWithRetry_loop (retries : Z) (rs : list Z) : M unit :=
  match rs with
  | [] => raise GitPushFailed
  | retry :: rs' =>
      broke ← try_except
                (RunCommand "repo sync ." None;;
                 RunCommand "git push" None;;
                 mret true)
                RunCommandError
                (when (retry <? retries)%Z (sleep (5 * retry));;
                 mret false);
      if broke : bool then mret tt else RevGitPushWithRetry_loop retries rs'
  end.

Definition RevGitPushWithRetry (retries : Z) : M unit :=
  RevGitPushWithRetry_loop retries (range 1 (retries + 1)).

(** The default value of the [retries] arguments. *)
Definition default_retries : Z := 5.

(** *** [RevGitFile] *)

Definition RevGitFile (filename value : str) (retries : Z) (key : str) : M unit :=
  let prebuilt_branch : str := "prebuilt_branch" in
  old_cwd ← getcwd;
  chdir (dirname filename);;
  RunCommand "repo sync ." None;;
  RunCommand ("repo start " ++ prebuilt_branch ++ " .") None;;
  let git_ssh_config_cmd : str :=
    "git config url.ssh://git@gitrw.chromium.org:9222.pushinsteadof " ++
    "http://git.chromium.org/git" in
  RunCommand git_ssh_config_cmd None;;
  let description := "Update " ++ key ++ "=" ++ quoted value ++ " in " ++ filename in
  try_finally
    (UpdateLocalFile filename value key;;
     RunCommand "git config push.default tracking" None;;
     RunCommand ("git commit -am " ++ quoted description) None;;
     RevGitPushWithRetry retries)
    (RunCommand ("repo abandon " ++ prebuilt_branch ++ " .") None;;
     chdir old_cwd).

(** *** [GetVersion] *)

Definition GetVersion : M str := mret (timestamp env).

(** *** [LoadPrivateFilters] and [ShouldFilterPackage] *)

(** ['(.*?)-\d.*.ebuild']; group 1 is the text of the first item. *)
Definition ebuild_re : regex :=
  [(Dot, StarLazy); (Lit "-", One); (Digit, One); (Dot, Star); (Dot, One)] ++ lits "ebuild".

(** The body of the [for file in files] loop: the filter a file gives, if
    any. *)
Definition ebuild_filter (file : str) : option str :=
  if endswith ".ebuild" file then
    let basename := basename file in
    match re_match ebuild_re basename with
    | Some (group1 :: _) => Some group1
    | _ => None
    end
  else None.

Definition LoadPrivateFilters (build_path : str) : M unit :=
  let filter_path := path_join build_path [_PRIVATE_OVERLAY_DIR] in
  let files := ListFiles env filter_path in
  let filters := omap ebuild_filter files in
  if bool_decide (filters = []) then raise FiltersEmpty
  else
    w ← get;
    set_filter_packages (_FILTER_PACKAGES w ∪ list_to_set filters).

(** [ShouldFilterPackage], as a function of the value of the global set. *)
Definition ShouldFilterPackage (filter_packages : gset str) (file_path : str) : bool :=
  existsb (fun name => contains name file_path) (elements filter_packages).

(** *** [_RetryRun] *)

(** The [for attempt in range(_RETRIES)] loop with its [else] clause. *)
Fixpoint _RetryRun_loop (attempts : list Z) (cmd : str) (cwd : option str) : M bool :=
  match attempts with
  | [] => mret false
  | _ :: attempts' =>
      ran ← try_except (RunCommand cmd cwd;; mret true) RunCommandError (mret false);
      if ran : bool then mret true else _RetryRun_loop attempts' cmd cwd
  end.

Definition _RetryRun (cmd : str) (cwd : option str) : M bool :=
  _RetryRun_loop (range 0 _RETRIES) cmd cwd.

(** *** [_GsUpload] and [RemoteUpload] *)

(** The command [_GsUpload] runs for a pair. *)
Definition gs_cmd (local_file remote_file : str) : str :=
  _GSUTIL_BIN ++ " cp -a public-read " ++ local_file ++ " " ++ remote_file.

(** Returns the pair when the upload failed and [None] otherwise. *)
Definition _GsUpload (args : str * str) : M (option (str * str)) :=
  let '(local_file, remote_file) := args in
  let cmd := gs_cmd local_file remote_file in
  ran ← _RetryRun cmd None;
  if negb ran then mret (Some (local_file, remote_file)) else mret None.

(** [pool.map_async(_GsUpload, workers, chunksize=1)] followed by
    [result.get]: the results come in the order of [workers]. The worker
    processes are run here one after the other, in that order; the size of
    the pool and the hourly wake-up of the wait have no part in the result
    and are not modelled. *)
Definition pool_map {A B} (f : A -> M B) (workers : list A) : M (list B) :=
  mapM f workers.

Definition RemoteUpload (files : gmap str str) : M (gset (option (str * str))) :=
  let workers := map_to_list files in
  result ← pool_map _GsUpload workers;
  mret (list_to_set result).

(** *** [GenerateUploadDict] *)

Fixpoint GenerateUploadDict_loop (base_local_path base_remote_path : str)
    (pkgs : list Pkg) (upload_files : gmap str str) : M (gmap str str) :=
  match pkgs with
  | [] => mret upload_files
  | pkg :: pkgs' =>
      let suffix := CPV pkg ++ ".tbz2" in
      let local_path := path_join base_local_path [suffix] in
      if negb (path_exists env local_path) then raise AssertionError
      else
        let remote_path := rstrip "/" base_remote_path ++ "/" ++ suffix in
        GenerateUploadDict_loop base_local_path base_remote_path pkgs'
          (<[local_path := remote_path]> upload_files)
  end.

Definition GenerateUploadDict (base_local_path base_remote_path : str)
    (pkgs : list Pkg) : M (gmap str str) :=
  GenerateUploadDict_loop base_local_path base_remote_path pkgs ∅.

(** *** [UpdateBinhostConfFile] *)

Definition UpdateBinhostConfFile (path key value : str) : M unit :=
  abs ← abspath path;
  let cwd := dirname abs in
  let filename := basename path in
  is_dir ← isdir cwd;
  when (negb is_dir) (makedirs cwd);;
  is_file ← isfile path;
  when (negb is_file)
    (write_file path ("FULL_BINHOST=" ++ quoted "$PORTAGE_BINHOST" ++ [NL]));;
  UpdateLocalFile path value key;;
  RunCommand ("git add " ++ filename) (Some cwd);;
  let description := "Update " ++ key ++ "=" ++ value ++ " in " ++ filename in
  RunCommand ("git commit -m " ++ quoted description) (Some cwd).

(** *** [UploadPrebuilt] *)

(** The truth value of an optional string: [None] and the empty string are
    false. *)
Definition truthy (o : option str) : bool :=
  match o with
  | Some (_ :: _) => true
  | _ => false
  end.

(** The first statement of [UploadPrebuilt], [if not board: ... else: ...]:
    the package directory, the relative remote path, the name that is
    printed, the make.conf to update and the binhost config file. *)
Definition UploadPrebuilt_target (build_path version : str) (board : option str)
    : M (str * str * str * str * str) :=
  if negb (truthy board) then
    (* We are uploading host packages *)
    let package_path := path_join build_path [_HOST_PACKAGES_PATH] in
    let url_suffix := _REL_HOST_PATH _HOST_TARGET version in
    let package_string := _HOST_TARGET in
    match _PREBUILT_MAKE_CONF _HOST_TARGET with
    | None => raise KeyError
    | Some make_conf =>
        let git_file := path_join build_path [make_conf] in
        let binhost_conf :=
          path_join build_path [_BINHOST_CONF_DIR; "host" : str; _HOST_TARGET ++ ".conf"] in
        mret (package_path, url_suffix, package_string, git_file, binhost_conf)
    end
  else
    let board := default [] board in
    let board_path := path_join build_path [_BOARD_PATH board] in
    let package_path := path_join board_path ["packages" : str] in
    let package_string := board in
    let url_suffix := _REL_BOARD_PATH board version in
    match DetermineMakeConfFile board with
    | inl e => raise e
    | inr make_conf =>
        let git_file := path_join build_path [make_conf] in
        let binhost_conf :=
          path_join build_path [_BINHOST_CONF_DIR; "target" : str; board ++ ".conf"] in
        mret (package_path, url_suffix, package_string, git_file, binhost_conf)
    end.

(** The statement [if upload_location.startswith('gs://'): ... else: ...]
    of [UploadPrebuilt]: the upload, by either transport. *)
Definition UploadPrebuilt_upload (upload_location package_path remote_location : str)
    (uploads : list Pkg) (tmp_packages_file : str) : M unit :=
  if startswith "gs://" upload_location then
    (* Build list of files to upload. *)
    upload_files ← GenerateUploadDict package_path remote_location uploads;
    let remote_file := rstrip "/" remote_location ++ "/Packages" in
    let upload_files := <[tmp_packages_file := remote_file]> upload_files in
    failed_uploads ← RemoteUpload upload_files;
    when ((1 <? size failed_uploads)%nat || negb (bool_decide (None ∈ failed_uploads)))
      (* error_msg formats every element of the set with '%s -> %s\n', which
         fails on None before UploadFailed is raised *)
      (if bool_decide (None ∈ failed_uploads) then raise TypeError
       else raise UploadFailed)
  else
    let pkgs := join " " (map (fun p => CPV p ++ ".tbz2") uploads) in
    match split1 ":" remote_location with
    | [ssh_server; remote_path] =>
        let remote_packages := rstrip "/" remote_location ++ "/Packages" in
        let cmds : list str :=
          ["ssh " ++ ssh_server ++ " mkdir -p " ++ remote_path;
           "rsync -av --chmod=a+r " ++ tmp_packages_file ++ " " ++ remote_packages] ++
          (if negb (eqs pkgs []) then ["rsync -Rav " ++ pkgs ++ " " ++ remote_location ++ "/"]
           else []) in
        forM cmds (fun cmd =>
          ran ← _RetryRun cmd (Some package_path);
          when (negb ran) (raise UploadFailed))
    | _ => raise ValueError
    end.

Definition UploadPrebuilt (build_path upload_location version binhost_base_url : str)
    (board : option str) (git_sync : bool) (git_sync_retries : Z) (key : str)
    (pkg_indexes : list PackageIndex) (sync_binhost_conf : bool) : M unit :=
  '(package_path, url_suffix, package_string, git_file, binhost_conf) ←
    UploadPrebuilt_target build_path version board;
  let remote_location := rstrip "/" upload_location ++ "/" ++ url_suffix in
  (* Process Packages file, removing duplicates and filtered packages. *)
  w ← get;
  let pkg_index := GrabLocalPackageIndex package_path in
  let pkg_index := SetUploadLocation binhost_base_url url_suffix pkg_index in
  let pkg_index :=
    RemoveFilteredPackages (ShouldFilterPackage (_FILTER_PACKAGES w)) pkg_index in
  let '(pkg_index, uploads) := ResolveDuplicateUploads pkg_indexes pkg_index in
  (* Write Packages file. *)
  let tmp_packages_file := WriteToNamedTemporaryFile pkg_index in
  UploadPrebuilt_upload upload_location package_path remote_location uploads
    tmp_packages_file;;
  let url_value := binhost_base_url ++ "/" ++ url_suffix ++ "/" in
  when git_sync (RevGitFile git_file url_value git_sync_retries key);;
  when sync_binhost_conf (UpdateBinhostConfFile binhost_conf key url_value).

(** *** [usage] and [main] *)

(** The options as [optparse] returns them. *)
Record Options : Type := {
  opt_binhost_base_url : str;
  opt_previous_binhost_url : list str;
  opt_board : option str;
  opt_build_path : option str;
  opt_sync_host : bool;
  opt_git_sync : bool;
  opt_upload : option str;
  opt_prepend_version : option str;
  opt_filters : bool;
  opt_key : str;
  opt_sync_binhost_conf : bool
}.

(** Display the usage message and the parser help, then [sys.exit(1)]. *)
Definition usage : M unit := raise (SystemExit 1).

(** The [for url in options.previous_binhost_url] loop. *)
Fixpoint grab_pkg_indexes (urls : list str) (pkg_indexes : list PackageIndex)
    : M (list PackageIndex) :=
  match urls with
  | [] => mret pkg_indexes
  | url :: urls' =>
      log (Fetched url);;
      match GrabRemotePackageIndex url with
      | Some pkg_index => grab_pkg_indexes urls' (pkg_indexes ++ [pkg_index])
      | None => grab_pkg_indexes urls' pkg_indexes
      end
  end.

Definition main (options : Options) : M unit :=
  (* Setup boto environment for gsutil to use *)
  w ← get;
  set_environ (<[("BOTO_CONFIG" : str) := _BOTO_CONFIG]> (environ w));;
  when (negb (truthy (opt_build_path options))) usage;;
  when (negb (truthy (opt_upload options))) usage;;
  let build_path := default [] (opt_build_path options) in
  let upload := default [] (opt_upload options) in
  when (opt_filters options) (LoadPrivateFilters build_path);;
  version ← GetVersion;
  let version :=
    if truthy (opt_prepend_version options)
    then default [] (opt_prepend_version options) ++ "-" ++ version
    else version in
  pkg_indexes ← grab_pkg_indexes (opt_previous_binhost_url options) [];
  when (opt_sync_host options)
    (UploadPrebuilt build_path upload version (opt_binhost_base_url options)
       None (opt_git_sync options) default_retries (opt_key options)
       pkg_indexes (opt_sync_binhost_conf options));;
  when (truthy (opt_board options))
    (UploadPrebuilt build_path upload version (opt_binhost_base_url options)
       (opt_board options) (opt_git_sync options) default_retries (opt_key options)
       pkg_indexes (opt_sync_binhost_conf options)).

End Prebuilt.

(** ** Notions used to state the properties *)

(** The lines of a file as [UpdateLocalFile] sees them: read one by one,
    each without its newline. *)
Definition file_lines (contents : str) : list str :=
  map (rstrip NL) (readlines contents).

(** [len(line.split('=')) == 2] *)
Definition is_pair (line : str) : bool :=
  bool_decide (length (split "=" line) = 2).

(** A line that splits into exactly one pair whose left side is [key]. *)
Definition is_key_line (key line : str) : bool :=
  match split "=" line with
  | [file_var; _] => eqs file_var key
  | _ => false
  end.

(** The lines that are not recognised as a pair, in their order. *)
Definition foreign_lines (lines : list str) : list str :=
  filter (fun line => is_pair line = false) lines.

(** The lines that assign [key], in their order. *)
Definition key_lines (key : str) (lines : list str) : list str :=
  filter (fun line => is_key_line key line = true) lines.


(** A key or value that can be written on one line of the form key=value:
    it holds neither an equals sign nor a newline. *)
Definition plain (s : str) : Prop := ("="%char ∉ s) ∧ (NL ∉ s).

(** A text built from its lines, each followed by a newline. *)
Definition text (lines : list str) : str :=
  concat (map (fun line => line ++ [NL]) lines).

(** The board names the first pattern of [DetermineMakeConfFile] matches:
    an underscore with no newline before it. *)
Definition variant_name (target : str) : Prop :=
  ∃ p q, target = p ++ "_"%char :: q ∧ (NL ∉ p).

(** The board names its second pattern matches: a hyphen with no newline
    before it and a word character after it. *)
Definition overlay_name (target : str) : Prop :=
  ∃ p c q, target = p ++ "-"%char :: c :: q ∧ (NL ∉ p) ∧ is_word c = true.

(** The slash [os.path.join] puts after a component, unless the component
    ends in one. *)
Definition dir_sep (component : str) : str :=
  if endswith "/" component then [] else "/".

(** The events a run added to the trace, oldest first. *)
Definition new_events (before after : World) (events : list Event) : Prop :=
  trace after = rev events ++ trace before.

(** How one turn of the loop of [RevGitPushWithRetry] can end. *)
Inductive Attempt : Type :=
  | SyncFailed          (* repo sync failed *)
  | PushFailed          (* repo sync succeeded and git push failed *)
  | Pushed.             (* both succeeded *)

Global Instance Attempt_eq_dec : EqDecision Attempt.
Proof. solve_decision. Defined.

(** The events of the turn in which [retry] has the value [n]: the commands
    that were run and, after a failure in a turn that is not the last one,
    the wait of five seconds times [n]. *)
Definition attempt_events (retries n : Z) (a : Attempt) : list Event :=
  let backoff := if (n <? retries)%Z then [Slept (5 * n)] else [] in
  match a with
  | SyncFailed => [Ran "repo sync ." None false] ++ backoff
  | PushFailed => [Ran "repo sync ." None true; Ran "git push" None false] ++ backoff
  | Pushed => [Ran "repo sync ." None true; Ran "git push" None true]
  end.

(** The events of successive turns, for the values [rs] of [retry]. *)
Definition attempts_events (retries : Z) (rs : list Z) (attempts : list Attempt)
    : list Event :=
  concat (zip_with (attempt_events retries) rs attempts).

(** Two worlds that differ in their traces at most. *)
Definition unchanged (w w' : World) : Prop :=
  files w' = files w ∧ dirs w' = dirs w ∧ cwd w' = cwd w ∧
  environ w' = environ w ∧ _FILTER_PACKAGES w' = _FILTER_PACKAGES w.

(** A run that only ran commands for which [P] holds, and changed nothing
    else. *)
Definition ran_only (P : str → Prop) (w w' : World) : Prop :=
  unchanged w w' ∧
  ∃ events, new_events w w' events ∧
            Forall (fun e => ∃ cmd dir ok, e = Ran cmd dir ok ∧ P cmd) events.

(** The commands of the two transports. *)
Definition is_transfer (cmd : str) : Prop :=
  startswith (_GSUTIL_BIN ++ " cp ") cmd = true ∨
  startswith "ssh " cmd = true ∨ startswith "rsync " cmd = true.

(** What [_GsUpload] returns for a pair, given the pairs whose transfer
    fails, and the events it leaves: one successful run, or [_RETRIES]
    failed ones. *)
Definition upload_result (fails : str * str → bool) (pair : str * str)
    : option (str * str) :=
  if fails pair then Some pair else None.

Definition upload_events (fails : str * str → bool) (pair : str * str) : list Event :=
  if fails pair
  then replicate (Z.to_nat _RETRIES) (Ran (gs_cmd pair.1 pair.2) None false)
  else [Ran (gs_cmd pair.1 pair.2) None true].

(** The runs of the transfer command of a pair by [_GsUpload] when the
    command fails [failures] times: the failed runs, followed by the run
    that succeeds unless three runs have failed. *)
Definition transfer_events (pair : str * str) (failures : nat) : list Event :=
  replicate failures (Ran (gs_cmd pair.1 pair.2) None false) ++
  if (failures <? 3)%nat then [Ran (gs_cmd pair.1 pair.2) None true] else [].

(** The exceptions a computation can end with are among those of [P]. *)
Definition raises_only {A} (P : Exc → Prop) (c : M A) : Prop :=
  ∀ w e w', c w = (inl e, w') → P e.

(** Every run of a computation relates the world before and after by [R]. *)
Definition relates {A} (R : World → World → Prop) (c : M A) : Prop :=
  ∀ w r w', c w = (r, w') → R w w'.

(** The exceptions of the steps that update the config files. *)
Definition config_exc (e : Exc) : Prop :=
  e = OSError ∨ e = IOError ∨ e = RunCommandError ∨ e = GitPushFailed.

(** The events of the uploads, and those of the steps that update the
    config files: repo and git commands, and waits. *)
Definition is_transfer_event (e : Event) : Prop :=
  ∃ cmd dir ok, e = Ran cmd dir ok ∧ is_transfer cmd.

Definition is_config_event (e : Event) : Prop :=
  (∃ cmd dir ok, e = Ran cmd dir ok ∧
                 (startswith "repo " cmd = true ∨ startswith "git " cmd = true)) ∨
  ∃ secs, e = Slept secs.

(** A run whose events all satisfy [P]. *)
Definition logged (P : Event → Prop) (w w' : World) : Prop :=
  ∃ events, new_events w w' events ∧ Forall P events.

(** ** Concrete inputs for the examples *)

(** A world in which nothing has happened yet. *)
Definition empty_world : World := mkWorld ∅ ∅ "/" ∅ ∅ [].

(** An environment in which the commands for which [failing] holds fail
    and every other command succeeds; no file is listed and no path
    exists. *)
Definition env_failing (failing : str → bool) : Env := {|
  command_succeeds := fun _ cmd _ => negb (failing cmd);
  ListFiles := fun _ => [];
  path_exists := fun _ => false;
  normpath := fun p => p;
  timestamp := "01.01.11.000000"
|}.

(** A package index that is a list of package names, none of which was
    uploaded before. *)
Definition binpkg_example : Binpkg := {|
  PackageIndex := list str;
  Pkg := str;
  CPV := fun pkg => pkg;
  GrabLocalPackageIndex := fun _ => [];
  GrabRemotePackageIndex := fun _ => None;
  SetUploadLocation := fun _ _ index => index;
  RemoveFilteredPackages := fun f index => filter (fun pkg => f pkg = false) index;
  ResolveDuplicateUploads := fun _ index => (index, index);
  WriteToNamedTemporaryFile := fun _ => "/tmp/Packages"
|}.

(** Options that ask for the host packages to be uploaded with filtering
    of the private packages. *)
Definition options_example : Options := {|
  opt_binhost_base_url := _BINHOST_BASE_URL;
  opt_previous_binhost_url := [];
  opt_board := None;
  opt_build_path := Some ("/b/cbuild/build" : str);
  opt_sync_host := true;
  opt_git_sync := true;
  opt_upload := Some ("gs://chromeos-prebuilt" : str);
  opt_prepend_version := None;
  opt_filters := true;
  opt_key := "PORTAGE_BINHOST";
  opt_sync_binhost_conf := true
|}.

(** Two files to upload. *)
Definition two_uploads : gmap str str :=
  {[ ("pkgs/a.tbz2" : str) := ("gs://bucket/a.tbz2" : str);
     ("pkgs/b.tbz2" : str) := ("gs://bucket/b.tbz2" : str) ]}.

(** A make.conf with a comment, an assignment of another variable and an
    assignment of the key. *)
Definition make_conf_example : str :=
  text ["# binhost settings" : str; "FULL_BINHOST=x" : str; "PORTAGE_BINHOST=old" : str].

(** A file that assigns the key [K] twice. *)
Definition two_assignments_example : str := text ["K=a" : str; "K=b" : str].


(** An environment in which every command succeeds or every command
    fails, and every path exists or none does. *)
Definition env_const (ok exist : bool) : Env := {|
  command_succeeds := fun _ _ _ => ok;
  ListFiles := fun _ => [];
  path_exists := fun _ => exist;
  normpath := fun p => p;
  timestamp := "01.01.11.000000"
|}.

(** A world whose only file is a make.conf that assigns PORTAGE_BINHOST. *)
Definition world_with_make_conf : World :=
  mkWorld {[ ("/b/overlay/make.conf" : str) := make_conf_example ]} ∅ "/b" ∅ ∅ [].

(** An environment in which every path exists and the commands for which
    [failing] holds fail. *)
Definition env_existing (failing : str → bool) : Env := {|
  command_succeeds := fun _ cmd _ => negb (failing cmd);
  ListFiles := fun _ => [];
  path_exists := fun _ => true;
  normpath := fun p => p;
  timestamp := "01.01.11.000000"
|}.

(** Options without an upload location, and options that select neither
    the host nor a board. *)
Definition options_no_upload : Options := {|
  opt_binhost_base_url := _BINHOST_BASE_URL;
  opt_previous_binhost_url := [];
  opt_board := None;
  opt_build_path := Some ("/b/cbuild/build" : str);
  opt_sync_host := true;
  opt_git_sync := true;
  opt_upload := None;
  opt_prepend_version := None;
  opt_filters := true;
  opt_key := "PORTAGE_BINHOST";
  opt_sync_binhost_conf := true
|}.

Definition options_no_target : Options := {|
  opt_binhost_base_url := _BINHOST_BASE_URL;
  opt_previous_binhost_url := ["http://old/1" : str; "http://old/2" : str];
  opt_board := None;
  opt_build_path := Some ("/b/cbuild/build" : str);
  opt_sync_host := false;
  opt_git_sync := true;
  opt_upload := Some ("gs://chromeos-prebuilt" : str);
  opt_prepend_version := None;
  opt_filters := false;
  opt_key := "PORTAGE_BINHOST";
  opt_sync_binhost_conf := true
|}.

(** A world with the directory of an overlay and no file. *)
Definition world_with_overlay_dir : World :=
  mkWorld ∅ {[ ("/b" : str); ("/b/overlay" : str) ]} "/b" ∅ ∅ [].

(** An environment in which a command fails until it has failed
    [failures cmd] times, and succeeds from then on. *)
Definition env_flaky (failures : str → nat) : Env := {|
  command_succeeds := fun w cmd dir =>
    (failures cmd <=? length (filter (fun e => e = Ran cmd dir false) (trace w)))%nat;
  ListFiles := fun _ => [];
  path_exists := fun _ => false;
  normpath := fun p => p;
  timestamp := "01.01.11.000000"
|}.

(** ** Facts about the library functions *)

Section PyFacts.

Implicit Types (s p : str) (c sep : ascii).

Lemma split_not_nil sep s : split sep s ≠ [].
Proof.
  destruct s as [|c s]; simpl; [done|].
  case_bool_decide; [done|]. by destruct (split sep s).
Qed.


Lemma split_no_sep sep s : sep ∉ s → split sep s = [s].
Proof.
  induction s as [|c s IH]; simpl; [done|]. intros Hn.
  apply not_elem_of_cons in Hn as [Hc Hs].
  rewrite bool_decide_false by done. by rewrite IH.
Qed.

Lemma split_app sep p s :
  sep ∉ p → split sep (p ++ sep :: s) = p :: split sep s.
Proof.
  induction p as [|c p IH]; simpl; intros Hn.
  - by rewrite bool_decide_true.
  - apply not_elem_of_cons in Hn as [Hc Hp].
    rewrite bool_decide_false by done. by rewrite IH.
Qed.

Lemma split_two sep a b :
  sep ∉ a → sep ∉ b → split sep (a ++ sep :: b) = [a; b].
Proof. intros Ha Hb. by rewrite split_app, split_no_sep. Qed.

Lemma split_parts sep s :
  Forall (fun p => sep ∉ p) (split sep s) ∧ join [sep] (split sep s) = s.
Proof.
  induction s as [|c s [IHf IHj]]; simpl.
  - split; [|done]. repeat constructor. by apply not_elem_of_nil.
  - case_bool_decide as Hc.
    + subst c. split.
      * constructor; [apply not_elem_of_nil|done].
      * pose proof (split_not_nil sep s).
        destruct (split sep s); [done|]. simpl in *. by rewrite IHj.
    + pose proof (split_not_nil sep s).
      destruct (split sep s) as [|p ps]; [done|].
      apply Forall_cons in IHf as [Hp Hps]. split.
      * constructor; [|done]. apply not_elem_of_cons. split; [congruence|done].
      * destruct ps; simpl in *; by rewrite <- IHj.
Qed.

Lemma split_two_inv sep s a b :
  split sep s = [a; b] → s = a ++ sep :: b ∧ (sep ∉ a) ∧ (sep ∉ b).
Proof.
  intros E. destruct (split_parts sep s) as [Hf Hj]. rewrite E in Hf, Hj.
  apply Forall_cons in Hf as [Ha Hf]. apply Forall_cons in Hf as [Hb _].
  simpl in Hj. by rewrite <- Hj.
Qed.

Lemma rstrip_no_char c s : c ∉ s → rstrip c s = s.
Proof.
  induction s as [|x s IH]; simpl; [done|]. intros Hn.
  apply not_elem_of_cons in Hn as [Hx Hs]. rewrite IH by done.
  destruct s; [|done]. by rewrite bool_decide_false by congruence.
Qed.

Lemma rstrip_snoc c s : c ∉ s → rstrip c (s ++ [c]) = s.
Proof.
  induction s as [|x s IH]; simpl; intros Hn.
  - by rewrite bool_decide_true.
  - apply not_elem_of_cons in Hn as [Hx Hs]. rewrite IH by done.
    destruct s; [|done]. by rewrite bool_decide_false by congruence.
Qed.

(** A line read from a file holds a newline at its end only. *)
Lemma readlines_shape s :
  Forall (fun l => ∃ l0, (NL ∉ l0) ∧ (l = l0 ∨ l = l0 ++ [NL])) (readlines s).
Proof.
  induction s as [|c s IH]; simpl; [constructor|].
  case_bool_decide as Hc.
  - subst c. constructor; [|done]. exists []. split; [apply not_elem_of_nil|by right].
  - destruct (readlines s) as [|l ls].
    + constructor; [|done]. exists [c]. split; [|by left].
      apply not_elem_of_cons. split; [congruence|apply not_elem_of_nil].
    + apply Forall_cons in IH as [(l0 & Hl0 & Hl) Hls]. constructor; [|done].
      exists (c :: l0). split.
      * apply not_elem_of_cons. split; [congruence|done].
      * destruct Hl as [->| ->]; [by left|by right].
Qed.

Lemma file_lines_no_newline contents :
  Forall (fun l => NL ∉ l) (file_lines contents).
Proof.
  unfold file_lines. apply Forall_map.
  eapply Forall_impl; [apply readlines_shape|].
  intros l (l0 & Hl0 & [->| ->]); simpl.
  - by rewrite rstrip_no_char.
  - by rewrite rstrip_snoc.
Qed.

Lemma readlines_line l s :
  NL ∉ l → readlines (l ++ NL :: s) = (l ++ [NL]) :: readlines s.
Proof.
  induction l as [|c l IH]; simpl; intros Hn; [done|].
  apply not_elem_of_cons in Hn as [Hc Hl].
  rewrite bool_decide_false by done. by rewrite IH.
Qed.

Lemma readlines_text ls :
  Forall (fun l => NL ∉ l) ls → readlines (text ls) = map (fun l => l ++ [NL]) ls.
Proof.
  unfold text. induction 1 as [|l ls Hl Hls IH]; simpl; [done|].
  rewrite <- app_assoc. simpl. by rewrite readlines_line, IH.
Qed.

Lemma join_newline ls : ls ≠ [] → join [NL] ls ++ [NL] = text ls.
Proof.
  unfold text. induction ls as [|l ls IH]; [done|]. intros _.
  destruct ls as [|l' ls]; simpl; [by rewrite app_nil_r|].
  simpl in IH. rewrite <- IH by done. by rewrite <- !app_assoc.
Qed.

Lemma file_lines_text ls :
  Forall (fun l => NL ∉ l) ls → file_lines (text ls) = ls.
Proof.
  intros Hls. unfold file_lines. rewrite readlines_text by done.
  induction Hls as [|l ls Hl Hls IH]; simpl; [done|].
  by rewrite rstrip_snoc, IH.
Qed.

Lemma rstrip_file_line contents l :
  l ∈ file_lines contents → rstrip NL l = l.
Proof.
  intros Hl. apply rstrip_no_char.
  pose proof (file_lines_no_newline contents) as Hf.
  rewrite Forall_forall in Hf. by apply Hf.
Qed.

Lemma rstrip_idemp c s : rstrip c (rstrip c s) = rstrip c s.
Proof.
  induction s as [|x s IH]; simpl; [done|].
  destruct (rstrip c s) as [|y r] eqn:E.
  - case_bool_decide as Hx; simpl; [done|]. by rewrite bool_decide_false.
  - change (rstrip c (x :: y :: r)) with
      (match rstrip c (y :: r) with
       | [] => if bool_decide (x = c) then [] else [x]
       | r' => x :: r'
       end).
    by rewrite IH.
Qed.

End PyFacts.

(** ** The library functions on examples *)

Example split_examples :
  split "=" "a=b=c" = ["a" : str; "b" : str; "c" : str] ∧
  split "=" "KEY=" = ["KEY" : str; [] : str] ∧
  split "=" [] = [[] : str] ∧
  split1 ":" "host:/a:b" = ["host" : str; "/a:b" : str].
Proof. repeat split. Qed.

Example readlines_examples :
  readlines ("a" ++ [NL] ++ "b") = ["a" ++ [NL]; "b" : str] ∧
  readlines ("a" ++ [NL] ++ [NL]) = ["a" ++ [NL]; [NL]] ∧
  readlines [] = [] ∧
  rstrip NL ("a" ++ [NL; NL]) = "a" ∧
  rstrip "/" "gs://bucket//" = "gs://bucket".
Proof. repeat split. Qed.

Example os_path_examples :
  path_join "/b" ["chroot/build/x" : str; "packages" : str] = "/b/chroot/build/x/packages" ∧
  path_join "/b/" ["/abs" : str] = "/abs" ∧
  dirname "/a/b/make.conf" = "/a/b" ∧
  basename "/a/b/make.conf" = "make.conf" ∧
  dirname "make.conf" = [] ∧
  dirname "/make.conf" = "/".
Proof. repeat split. Qed.

(** The lazy star takes as little as it can and the greedy one as much:
    group 1 of the ebuild pattern ends before the first hyphen that a digit
    follows. *)
Example re_match_examples :
  re_match variant_re "lumpy_variant" = Some ["lumpy" : str; "_" : str; "variant" : str] ∧
  re_match overlay_re "x86-generic" = Some ["x86" : str; "-" : str; "generic" : str] ∧
  re_match overlay_re "??invalid" = None ∧
  ebuild_filter "/o/chromeos-base/foo-bar-0.0.1-r3.ebuild" = Some ("foo-bar" : str) ∧
  ebuild_filter "/o/chromeos-base/foo-bar-0.0.1-r3.patch" = None.
Proof. repeat split. Qed.

(** ** [UpdateLocalFile]: how the loop treats a line *)

Section UpdateLocalFileFacts.

Implicit Types (key value line contents : str) (lines : list str).

Lemma keyval_str_cons key value : keyval_str key value = key ++ "="%char :: value.
Proof. done. Qed.

Lemma is_key_line_inv key line :
  is_key_line key line = true →
  ∃ val, line = keyval_str key val ∧ ("="%char ∉ key) ∧ ("="%char ∉ val).
Proof.
  unfold is_key_line. destruct (split "=" line) as [|a [|b [|]]] eqn:E; try done.
  unfold eqs. intros ->%bool_decide_eq_true.
  apply split_two_inv in E as (-> & Ha & Hb). by exists b.
Qed.

Lemma is_key_line_keyval key value :
  "="%char ∉ key → "="%char ∉ value → is_key_line key (keyval_str key value) = true.
Proof.
  intros Hk Hv. unfold is_key_line. rewrite keyval_str_cons, split_two by done.
  by apply bool_decide_eq_true.
Qed.

Lemma is_key_line_pair key line : is_key_line key line = true → is_pair line = true.
Proof.
  unfold is_key_line, is_pair.
  destruct (split "=" line) as [|a [|b [|]]]; done.
Qed.

Lemma is_pair_keyval key value :
  "="%char ∉ key → "="%char ∉ value → is_pair (keyval_str key value) = true.
Proof. intros. by apply (is_key_line_pair key), is_key_line_keyval. Qed.


Lemma quoted_no_eq value : "="%char ∉ value → "="%char ∉ quoted value.
Proof.
  intros Hv. unfold quoted. rewrite !not_elem_of_app, !not_elem_of_cons.
  repeat split; try done; apply not_elem_of_nil.
Qed.

Lemma quoted_no_newline value : NL ∉ value → NL ∉ quoted value.
Proof.
  intros Hv. unfold quoted. rewrite !not_elem_of_app, !not_elem_of_cons.
  repeat split; try done; apply not_elem_of_nil.
Qed.

Lemma keyval_no_newline key value : NL ∉ key → NL ∉ value → NL ∉ keyval_str key value.
Proof.
  intros Hk Hv. rewrite keyval_str_cons, not_elem_of_app, not_elem_of_cons. done.
Qed.

(** One turn of the loop: a line that assigns the key is replaced, every
    other line is appended as it was read. *)
Lemma UpdateLocalFile_loop_cons key line lines found value :
  UpdateLocalFile_loop key (line :: lines) found value =
  if is_key_line key (rstrip NL line)
  then keyval_str key (quoted value) ::
       UpdateLocalFile_loop key lines true (quoted value)
  else rstrip NL line :: UpdateLocalFile_loop key lines found value.
Proof.
  cbn [UpdateLocalFile_loop]. unfold is_key_line.
  destruct (split "=" (rstrip NL line)) as [|a [|b [|]]] eqn:E; try done.
  destruct (eqs a key); [done|].
  apply split_two_inv in E as (-> & _ & _). done.
Qed.

Lemma UpdateLocalFile_loop_rstrip key lines found value :
  UpdateLocalFile_loop key lines found value =
  UpdateLocalFile_loop key (map (rstrip NL) lines) found value.
Proof.
  revert found value. induction lines as [|l ls IH]; intros found value; [done|].
  rewrite map_cons, !UpdateLocalFile_loop_cons, rstrip_idemp.
  by rewrite !IH.
Qed.

(** [file_lines] of the rewritten file are computed from those of the file. *)
Lemma UpdateLocalFile_lines_file_lines contents value key :
  UpdateLocalFile_lines contents value key =
  UpdateLocalFile_loop key (file_lines contents) false value.
Proof. apply UpdateLocalFile_loop_rstrip. Qed.

(** The same turn for a line without a newline. *)
Lemma UpdateLocalFile_loop_line key line lines found value :
  NL ∉ line →
  UpdateLocalFile_loop key (line :: lines) found value =
  if is_key_line key line
  then keyval_str key (quoted value) ::
       UpdateLocalFile_loop key lines true (quoted value)
  else line :: UpdateLocalFile_loop key lines found value.
Proof. intros Hl. by rewrite UpdateLocalFile_loop_cons, rstrip_no_char. Qed.

Lemma UpdateLocalFile_loop_not_nil key lines value :
  UpdateLocalFile_loop key lines false value ≠ [].
Proof.
  destruct lines as [|l ls]; [done|].
  rewrite UpdateLocalFile_loop_cons. by destruct (is_key_line _ _).
Qed.

Lemma UpdateLocalFile_loop_no_newline key lines found value :
  NL ∉ key → NL ∉ value → Forall (fun l => NL ∉ l) lines →
  Forall (fun l => NL ∉ l) (UpdateLocalFile_loop key lines found value).
Proof.
  intros Hk Hv Hls. revert found value Hv.
  induction Hls as [|l ls Hl Hls IH]; intros found value Hv.
  - simpl. destruct found; simpl; [constructor|].
    constructor; [|constructor]. by apply keyval_no_newline.
  - rewrite UpdateLocalFile_loop_line by done.
    destruct (is_key_line key l).
    + constructor; [|by apply IH, quoted_no_newline].
      by apply keyval_no_newline, quoted_no_newline.
    + constructor; [done|by apply IH].
Qed.

(** The text that is written is made of [file_lines], and reading it back
    gives these lines again. *)
Lemma UpdateLocalFile_text_lines contents value key :
  UpdateLocalFile_text contents value key =
  text (UpdateLocalFile_lines contents value key).
Proof.
  unfold UpdateLocalFile_text. apply join_newline.
  apply UpdateLocalFile_loop_not_nil.
Qed.

Lemma file_lines_UpdateLocalFile_text contents value key :
  NL ∉ key → NL ∉ value →
  file_lines (UpdateLocalFile_text contents value key) =
  UpdateLocalFile_lines contents value key.
Proof.
  intros Hk Hv. rewrite UpdateLocalFile_text_lines. apply file_lines_text.
  rewrite UpdateLocalFile_lines_file_lines.
  apply UpdateLocalFile_loop_no_newline; [done..|apply file_lines_no_newline].
Qed.

(** Without a line that assigns the key, the lines are kept and one line is
    appended: the key, an equals sign and the value as it was passed. *)
Lemma UpdateLocalFile_loop_absent key lines value :
  Forall (fun l => NL ∉ l) lines →
  Forall (fun l => is_key_line key l = false) lines →
  UpdateLocalFile_loop key lines false value = lines ++ [keyval_str key value].
Proof.
  intros Hnl Hk. induction Hnl as [|l ls Hl Hls IH]; [done|].
  apply Forall_cons in Hk as [Hkl Hk].
  rewrite UpdateLocalFile_loop_line, Hkl by done. simpl. by rewrite IH.
Qed.

Lemma UpdateLocalFile_lines_absent contents value key :
  Forall (fun l => is_key_line key l = false) (file_lines contents) →
  UpdateLocalFile_lines contents value key =
  file_lines contents ++ [keyval_str key value].
Proof.
  intros Hk. rewrite UpdateLocalFile_lines_file_lines.
  apply UpdateLocalFile_loop_absent; [apply file_lines_no_newline|done].
Qed.

(** The loop appends a line at the end exactly when it found no line that
    assigns the key. *)
Lemma UpdateLocalFile_loop_length (key : str) (lines : list str) (found : bool)
    (value : str) :
  Forall (fun l => NL ∉ l) lines →
  length (UpdateLocalFile_loop key lines found value) =
  (length lines + if found || existsb (is_key_line key) lines then 0 else 1)%nat.
Proof.
  intros Hls. revert found value.
  induction Hls as [|l ls Hl Hls IH]; intros found value.
  - rewrite orb_false_r. by destruct found.
  - rewrite UpdateLocalFile_loop_line by done. cbn [existsb].
    destruct (is_key_line key l); cbn [length].
    + rewrite IH, orb_true_r. done.
    + by rewrite IH.
Qed.





End UpdateLocalFileFacts.

(** ** Running the script: general facts *)

Section Running.

Context {binpkg : Binpkg} (env : Env).

Lemma bind_run {A B} (c : M A) (k : A → M B) (w : World) :
  (c ≫= k) w =
  match c w with
  | (inl e, w') => (inl e, w')
  | (inr a, w') => k a w'
  end.
Proof. done. Qed.

Lemma RunCommand_run cmd dir w :
  RunCommand env cmd dir w =
  let ok := command_succeeds env w cmd dir in
  ((if ok then inr tt else inl RunCommandError),
   mkWorld (files w) (dirs w) (cwd w) (environ w) (_FILTER_PACKAGES w)
     (Ran cmd dir ok :: trace w)).
Proof.
  unfold RunCommand. rewrite !bind_run. simpl.
  by destruct (command_succeeds env w cmd dir).
Qed.

Lemma abspath_run path w :
  abspath env path w = (inr (normpath env (path_join (cwd w) [path])), w).
Proof. done. Qed.

(** On a file that exists, [UpdateLocalFile] replaces its contents by the
    rewritten text and does nothing else. *)
Lemma UpdateLocalFile_run filename value key contents w :
  files w !! normpath env (path_join (cwd w) [filename]) = Some contents →
  UpdateLocalFile env filename value key w =
    (inr tt,
     mkWorld
       (<[normpath env (path_join (cwd w) [filename]) :=
            UpdateLocalFile_text contents value key]> (files w))
       (dirs w) (cwd w) (environ w) (_FILTER_PACKAGES w) (trace w)).
Proof.
  intros Hfile. unfold UpdateLocalFile, read_file, write_file.
  rewrite bind_run, bind_run, abspath_run, bind_run. cbn [get].
  rewrite Hfile. cbn [mret M_ret].
  by rewrite bind_run, abspath_run, bind_run.
Qed.

Lemma new_events_nil w : new_events w w [].
Proof. done. Qed.

Lemma new_events_app w1 w2 w3 e1 e2 :
  new_events w1 w2 e1 → new_events w2 w3 e2 → new_events w1 w3 (e1 ++ e2).
Proof.
  unfold new_events. intros H1 H2. by rewrite H2, H1, rev_app_distr, app_assoc.
Qed.

End Running.

(** ** [UpdateLocalFile]: the properties of the specification *)

Section UpdateLocalFileProperties.

Implicit Types (key value line contents : str) (lines : list str).

Lemma UpdateLocalFile_loop_idem key lines f1 f2 value :
  plain value → Forall (fun l => NL ∉ l) lines →
  f1 || existsb (is_key_line key) lines = true →
  f2 || existsb (is_key_line key) lines = true →
  UpdateLocalFile_loop key (UpdateLocalFile_loop key lines f1 value) f2 value =
  UpdateLocalFile_loop key lines f1 value.
Proof.
  intros Hv Hls. revert f1 f2 value Hv.
  induction Hls as [|l ls Hl Hls IH]; intros f1 f2 value [Hve Hvn] H1 H2.
  - rewrite orb_false_r in H1, H2. by subst.
  - rewrite UpdateLocalFile_loop_line by done.
    destruct (is_key_line key l) eqn:Hkl.
    + apply is_key_line_inv in Hkl as (val & -> & Hke & _).
      assert (NL ∉ key) as Hkn.
      { rewrite keyval_str_cons, not_elem_of_app in Hl. tauto. }
      rewrite UpdateLocalFile_loop_line
        by by apply keyval_no_newline, quoted_no_newline.
      rewrite is_key_line_keyval by by (try apply quoted_no_eq).
      f_equal. apply IH; [|done..].
      split; [by apply quoted_no_eq|by apply quoted_no_newline].
    + simpl in H1, H2. rewrite Hkl in H1, H2.
      rewrite UpdateLocalFile_loop_line, Hkl by done.
      f_equal. by apply IH.
Qed.

Lemma UpdateLocalFile_text_twice contents key value :
  plain value →
  (∃ line, line ∈ file_lines contents ∧ is_key_line key line = true) →
  UpdateLocalFile_text (UpdateLocalFile_text contents value key) value key =
  UpdateLocalFile_text contents value key.
Proof.
  intros Hv (line & Hin & Hkl).
  assert (NL ∉ key) as Hkn.
  { pose proof (file_lines_no_newline contents) as Hf.
    rewrite Forall_forall in Hf. specialize (Hf _ Hin).
    apply is_key_line_inv in Hkl as (val & -> & _).
    rewrite keyval_str_cons, not_elem_of_app in Hf. tauto. }
  assert (existsb (is_key_line key) (file_lines contents) = true) as Hex.
  { apply existsb_exists. exists line. by rewrite <- list_elem_of_In. }
  assert (UpdateLocalFile_lines (UpdateLocalFile_text contents value key) value key =
          UpdateLocalFile_lines contents value key) as E.
  { rewrite UpdateLocalFile_lines_file_lines.
    rewrite file_lines_UpdateLocalFile_text by (done || apply Hv).
    rewrite UpdateLocalFile_lines_file_lines.
    apply UpdateLocalFile_loop_idem;
      [done|apply file_lines_no_newline|done|done]. }
  unfold UpdateLocalFile_text at 1. by rewrite E.
Qed.

(** C1, as the code has it: when the file already holds a line that assigns
    the key, and the value holds neither an equals sign nor a newline,
    updating the file a second time with the same key and value leaves the
    text that the first update wrote; so that, in any world where the file
    exists, calling [UpdateLocalFile] twice gives the world that calling it
    once gives. *)
Theorem UpdateLocalFile_idempotent_present contents key value :
  plain value →
  (∃ line, line ∈ file_lines contents ∧ is_key_line key line = true) →
  UpdateLocalFile_text (UpdateLocalFile_text contents value key) value key =
    UpdateLocalFile_text contents value key ∧
  ∀ (env : Env) (filename : str) (w : World),
    files w !! normpath env (path_join (cwd w) [filename]) = Some contents →
    (UpdateLocalFile env filename value key;;
     UpdateLocalFile env filename value key) w =
    UpdateLocalFile env filename value key w.
Proof.
  intros Hv Hkey.
  pose proof (UpdateLocalFile_text_twice contents key value Hv Hkey) as Htwice.
  split; [done|]. intros env filename w Hfile.
  rewrite bind_run, (UpdateLocalFile_run env _ _ _ contents) by done.
  erewrite UpdateLocalFile_run by apply lookup_insert_eq.
  cbn [files dirs cwd environ _FILTER_PACKAGES trace].
  by rewrite Htwice, insert_insert_eq.
Qed.

(** C2: on a file without a line that assigns the key, the line that is
    appended holds the value as it was passed, without the double quotes
    that the documented file format and the replacing branch give it. *)
Theorem UpdateLocalFile_absent_key_unquoted contents key value :
  Forall (fun l => is_key_line key l = false) (file_lines contents) →
  UpdateLocalFile_text contents value key =
    text (file_lines contents ++ [key ++ "=" ++ value]) ∧
  UpdateLocalFile_text contents value key ≠
    text (file_lines contents ++ [key ++ "=" ++ quoted value]).
Proof.
  intros Hk.
  assert (UpdateLocalFile_text contents value key =
          text (file_lines contents ++ [key ++ "=" ++ value])) as E.
  { by rewrite UpdateLocalFile_text_lines, UpdateLocalFile_lines_absent. }
  split; [done|]. rewrite E. intros Heq.
  apply (f_equal length) in Heq. unfold text, quoted in Heq.
  rewrite !map_app, !concat_app in Heq. simpl in Heq.
  repeat (rewrite !length_app in Heq || simpl in Heq). lia.
Qed.

Lemma key_lines_loop key lines found value :
  "="%char ∉ key → "="%char ∉ value → Forall (fun l => NL ∉ l) lines →
  length (key_lines key (UpdateLocalFile_loop key lines found value)) =
  if found then length (key_lines key lines)
  else max 1 (length (key_lines key lines)).
Proof.
  intros Hk Hv Hls. revert found value Hv. unfold key_lines.
  induction Hls as [|l ls Hl Hls IH]; intros found value Hv.
  - destruct found; [done|]. simpl.
    rewrite filter_cons, decide_True by by apply is_key_line_keyval. done.
  - rewrite UpdateLocalFile_loop_line by done.
    rewrite (filter_cons _ l). destruct (is_key_line key l) eqn:Hkl.
    + rewrite decide_True by done.
      rewrite filter_cons, decide_True
        by by apply is_key_line_keyval, quoted_no_eq.
      simpl. rewrite IH by by apply quoted_no_eq. by destruct found.
    + rewrite decide_False by congruence.
      rewrite filter_cons, decide_False by congruence. by apply IH.
Qed.

(** C3, as the code has it: for a key and a value that hold neither an
    equals sign nor a newline, the rewritten file has as many lines that
    assign the key as the file had, and one when it had none; so exactly
    one whenever the file had at most one. *)
Theorem UpdateLocalFile_key_lines contents key value :
  plain key → plain value →
  length (key_lines key (file_lines (UpdateLocalFile_text contents value key))) =
    max 1 (length (key_lines key (file_lines contents))) ∧
  ((length (key_lines key (file_lines contents)) ≤ 1)%nat →
   length (key_lines key (file_lines (UpdateLocalFile_text contents value key))) = 1).
Proof.
  intros [Hke Hkn] [Hve Hvn].
  assert (length (key_lines key (file_lines (UpdateLocalFile_text contents value key))) =
          max 1 (length (key_lines key (file_lines contents)))) as E.
  { rewrite file_lines_UpdateLocalFile_text, UpdateLocalFile_lines_file_lines by done.
    apply (key_lines_loop key _ false); [done..|apply file_lines_no_newline]. }
  split; [done|]. rewrite E. lia.
Qed.

Lemma foreign_lines_loop key lines found value :
  "="%char ∉ key → "="%char ∉ value → Forall (fun l => NL ∉ l) lines →
  foreign_lines (UpdateLocalFile_loop key lines found value) = foreign_lines lines.
Proof.
  intros Hk Hv Hls. revert found value Hv. unfold foreign_lines.
  induction Hls as [|l ls Hl Hls IH]; intros found value Hv.
  - destruct found; [done|]. simpl.
    rewrite filter_cons, decide_False; [done|].
    by rewrite is_pair_keyval.
  - rewrite UpdateLocalFile_loop_line by done.
    rewrite (filter_cons _ l). destruct (is_key_line key l) eqn:Hkl.
    + rewrite filter_cons, decide_False
        by by rewrite is_pair_keyval by by (try apply quoted_no_eq).
      rewrite decide_False by by rewrite (is_key_line_pair key).
      by apply IH, quoted_no_eq.
    + rewrite filter_cons. case_decide; [f_equal|]; by apply IH.
Qed.

(** C4, as the code has it: for a key and a value that hold neither an
    equals sign nor a newline, the lines of the rewritten file that are not
    recognised as a pair are those of the file, each as it was, none twice,
    in the same order. *)
Theorem UpdateLocalFile_foreign_lines contents key value :
  plain key → plain value →
  foreign_lines (file_lines (UpdateLocalFile_text contents value key)) =
  foreign_lines (file_lines contents).
Proof.
  intros [Hke Hkn] [Hve Hvn].
  rewrite file_lines_UpdateLocalFile_text, UpdateLocalFile_lines_file_lines by done.
  apply foreign_lines_loop; [done..|apply file_lines_no_newline].
Qed.

Lemma UpdateLocalFile_loop_lookup key pre line post found value :
  Forall (fun l => NL ∉ l) (pre ++ [line]) → is_key_line key line = false →
  UpdateLocalFile_loop key (pre ++ line :: post) found value !! length pre = Some line.
Proof.
  revert found value. induction pre as [|l pre IH]; intros found value Hnl Hkl.
  - apply Forall_cons in Hnl as [Hl _]. simpl app.
    by rewrite UpdateLocalFile_loop_line, Hkl by done.
  - apply Forall_cons in Hnl as [Hl Hnl]. simpl app.
    rewrite UpdateLocalFile_loop_line by done.
    destruct (is_key_line key l); simpl; by apply IH.
Qed.


End UpdateLocalFileProperties.

(** ** [UpdateLocalFile]: examples *)

Lemma UpdateLocalFile_idempotent_present_witness :
  UpdateLocalFile_text
    (UpdateLocalFile_text make_conf_example "http://host/packages/" "PORTAGE_BINHOST")
    "http://host/packages/" "PORTAGE_BINHOST" =
  UpdateLocalFile_text make_conf_example "http://host/packages/" "PORTAGE_BINHOST".
Proof.
  apply (UpdateLocalFile_idempotent_present make_conf_example "PORTAGE_BINHOST"
           "http://host/packages/").
  - split; compute_done.
  - exists ("PORTAGE_BINHOST=old" : str).
    split; [compute_done|reflexivity].
Defined.

(** Updating with a value that holds an equals sign: the line written by
    the first update is no longer taken for a pair, and the second update
    appends another line for the key. *)
Lemma UpdateLocalFile_not_idempotent :
  UpdateLocalFile_text (UpdateLocalFile_text (text ["K=old" : str]) "a=b" "K") "a=b" "K" =
    text ["K=" ++ quoted "a=b"; "K=a=b" : str] ∧
  UpdateLocalFile_text (text ["K=old" : str]) "a=b" "K" = text ["K=" ++ quoted "a=b"] ∧
  UpdateLocalFile_text (UpdateLocalFile_text (text ["K=old" : str]) "a=b" "K") "a=b" "K" ≠
    UpdateLocalFile_text (text ["K=old" : str]) "a=b" "K".
Proof. split; [|split]; [reflexivity..|]. vm_compute. discriminate. Qed.

(** The empty file: the key is absent, and the appended line is not quoted. *)
Lemma UpdateLocalFile_absent_key_unquoted_witness :
  UpdateLocalFile_text [] "http://host/packages/" "PORTAGE_BINHOST" =
    text ["PORTAGE_BINHOST=http://host/packages/" : str] ∧
  UpdateLocalFile_text [] "http://host/packages/" "PORTAGE_BINHOST" ≠
    text ["PORTAGE_BINHOST=" ++ quoted "http://host/packages/"].
Proof.
  apply (UpdateLocalFile_absent_key_unquoted [] "PORTAGE_BINHOST" "http://host/packages/").
  constructor.
Defined.

(** The second update of a file that did not hold the key finds the line
    of the first one and quotes its value. *)
Example UpdateLocalFile_absent_then_quoted :
  UpdateLocalFile_text [] "v" "K" = text ["K=v" : str] ∧
  UpdateLocalFile_text (UpdateLocalFile_text [] "v" "K") "v" "K" = text ["K=" ++ quoted "v"].
Proof. split; reflexivity. Qed.

Lemma UpdateLocalFile_key_lines_witness :
  length (key_lines "PORTAGE_BINHOST"
    (file_lines (UpdateLocalFile_text make_conf_example "v" "PORTAGE_BINHOST"))) = 1.
Proof.
  apply (UpdateLocalFile_key_lines make_conf_example "PORTAGE_BINHOST" "v").
  - split; compute_done.
  - split; compute_done.
  - vm_compute. lia.
Defined.

(** A file that assigns the key twice still does so after the update. *)
Lemma UpdateLocalFile_two_key_lines :
  UpdateLocalFile_text two_assignments_example "v" "K" =
    text ["K=" ++ quoted "v"; "K=" ++ quoted (quoted "v")] ∧
  length (key_lines "K" (file_lines (UpdateLocalFile_text two_assignments_example "v" "K"))) = 2 ∧
  length (key_lines "K" (file_lines (UpdateLocalFile_text two_assignments_example "v" "K"))) ≠ 1.
Proof. split; [|split]; [reflexivity..|]. vm_compute. discriminate. Qed.

Lemma UpdateLocalFile_foreign_lines_witness :
  foreign_lines (file_lines (UpdateLocalFile_text make_conf_example "v" "PORTAGE_BINHOST")) =
  foreign_lines (file_lines make_conf_example).
Proof.
  apply UpdateLocalFile_foreign_lines;
    split; compute_done.
Defined.

(** A value that holds an equals sign adds a line that is not a pair. *)
Lemma UpdateLocalFile_new_foreign_line :
  foreign_lines (file_lines (UpdateLocalFile_text [] "a=b" "K")) = ["K=a=b" : str] ∧
  foreign_lines (file_lines []) = [] ∧
  foreign_lines (file_lines (UpdateLocalFile_text [] "a=b" "K")) ≠
    foreign_lines (file_lines []).
Proof. split; [|split]; [reflexivity..|]. vm_compute. discriminate. Qed.


(** A file with both kinds of line: the first is replaced, the second is
    copied, and no line is appended. *)
Example UpdateLocalFile_replaces_and_copies :
  UpdateLocalFile_lines (text ["K=old" : str; "K=" ++ quoted "a=b"]) "c" "K" =
    ["K=" ++ quoted "c"; "K=" ++ quoted "a=b"].
Proof. reflexivity. Qed.

(** ** [re.match]: when a pattern matches *)

Section ReFacts.

Context {A : Type}.
Implicit Types (k : cls) (rest : str → option A) (s p q : str).

Lemma lazy_is_Some k rest s :
  is_Some (lazy k rest s) ↔
  ∃ p q, s = p ++ q ∧ Forall (fun c => cls_ok k c = true) p ∧ is_Some (rest q).
Proof.
  split.
  - induction s as [|c s IH]; simpl.
    + destruct (rest []) eqn:E; [|by intros [? ?]].
      intros _. exists [], []. by rewrite E.
    + destruct (rest (c :: s)) eqn:E.
      { intros _. exists [], (c :: s). by rewrite E. }
      destruct (cls_ok k c) eqn:Hc; [|by intros [? ?]].
      destruct (lazy k rest s) as [[t r]|] eqn:El; [|by intros [? ?]].
      intros _. destruct IH as (p & q & -> & Hp & Hq); [done|].
      exists (c :: p), q. by repeat split; [constructor|].
  - intros (p & q & -> & Hp & Hq). induction Hp as [|c p Hc Hp IH]; simpl.
    + destruct q; simpl; by destruct Hq as [r ->].
    + destruct (rest (c :: p ++ q)); [done|]. rewrite Hc.
      destruct IH as [[t r] ->]. done.
Qed.

Lemma greedy_is_Some k rest s :
  is_Some (greedy k rest s) ↔
  ∃ p q, s = p ++ q ∧ Forall (fun c => cls_ok k c = true) p ∧ is_Some (rest q).
Proof.
  split.
  - induction s as [|c s IH]; simpl.
    + destruct (rest []) eqn:E; [|by intros [? ?]].
      intros _. exists [], []. by rewrite E.
    + assert (is_Some (option_map (pair ([] : str)) (rest (c :: s))) →
              ∃ p q, c :: s = p ++ q ∧ Forall (fun c => cls_ok k c = true) p ∧
                     is_Some (rest q)) as Hrest.
      { destruct (rest (c :: s)) eqn:E; [|by intros [? ?]].
        intros _. exists [], (c :: s). by rewrite E. }
      destruct (cls_ok k c) eqn:Hc; [|done].
      destruct (greedy k rest s) as [[t r]|] eqn:Eg; [|done].
      intros _. destruct IH as (p & q & -> & Hp & Hq); [done|].
      exists (c :: p), q. by repeat split; [constructor|].
  - intros (p & q & -> & Hp & Hq). induction Hp as [|c p Hc Hp IH]; simpl.
    + destruct Hq as [r Hr].
      destruct q as [|c q]; simpl; [by rewrite Hr|].
      destruct (cls_ok k c); [|by rewrite Hr].
      destruct (greedy k rest q) as [[t r']|]; [done|by rewrite Hr].
    + rewrite Hc. destruct IH as [[t r] ->]. done.
Qed.

End ReFacts.

Lemma option_map_is_Some {A B} (f : A → B) (o : option A) :
  is_Some (option_map f o) ↔ is_Some o.
Proof. destruct o; simpl; split; intros [? ?]; done. Qed.

Lemma Forall_Dot (p : str) : Forall (fun c => cls_ok Dot c = true) p ↔ NL ∉ p.
Proof.
  rewrite Forall_forall. unfold cls_ok. split.
  - intros H Hin. specialize (H _ Hin). by rewrite bool_decide_true in H.
  - intros H c Hc. rewrite bool_decide_false; [done|]. by intros ->.
Qed.

(** ['.*?_.*'] matches the names with an underscore on their first line. *)
Lemma variant_re_matches (target : str) :
  is_Some (re_match variant_re target) ↔ variant_name target.
Proof.
  unfold variant_re, variant_name. cbn [re_match].
  rewrite option_map_is_Some, lazy_is_Some. split.
  - intros (p & q & -> & Hp & Hq). exists p.
    destruct q as [|c q]; [by destruct Hq|].
    unfold cls_ok in Hq. case_bool_decide; [subst c|by destruct Hq].
    exists q. by rewrite <- Forall_Dot.
  - intros (p & q & -> & Hp). exists p, ("_"%char :: q).
    split; [done|]. split; [by apply Forall_Dot|].
    unfold cls_ok. rewrite bool_decide_true by done.
    rewrite !option_map_is_Some, greedy_is_Some.
    exists [], q. by repeat split.
Qed.

(** ['.*?-\w+'] matches the names with, on their first line, a hyphen that a
    word character follows. *)
Lemma overlay_re_matches (target : str) :
  is_Some (re_match overlay_re target) ↔ overlay_name target.
Proof.
  unfold overlay_re, overlay_name. cbn [re_match].
  rewrite option_map_is_Some, lazy_is_Some. split.
  - intros (p & q & -> & Hp & Hq). exists p.
    destruct q as [|c q]; [by destruct Hq|].
    unfold cls_ok at 1 in Hq. case_bool_decide; [subst c|by destruct Hq].
    destruct q as [|c q]; [by destruct Hq|].
    destruct (cls_ok Word c) eqn:Hc; [|by destruct Hq].
    exists c, q. by rewrite <- Forall_Dot.
  - intros (p & c & q & -> & Hp & Hc). exists p, ("-"%char :: c :: q).
    split; [done|]. split; [by apply Forall_Dot|].
    unfold cls_ok at 1. rewrite bool_decide_true by done.
    rewrite option_map_is_Some. cbn [cls_ok]. rewrite Hc.
    rewrite option_map_is_Some, greedy_is_Some.
    exists [], q. by repeat split.
Qed.

(** On a name without a newline the first pattern asks for an underscore. *)
Lemma variant_name_underscore (target : str) :
  NL ∉ target → variant_name target ↔ "_"%char ∈ target.
Proof.
  intros Hnl. split.
  - intros (p & q & -> & _). rewrite elem_of_app, elem_of_cons. tauto.
  - intros (p & q & ->)%list_elem_of_split. exists p, q. split; [done|].
    rewrite not_elem_of_app in Hnl. tauto.
Qed.

(** ** [DetermineMakeConfFile] *)

Lemma endswith_slash_app (a t : str) :
  t ≠ [] → endswith "/" (a ++ t) = endswith "/" t.
Proof.
  intros Ht. unfold endswith. rewrite rev_app_distr.
  destruct (rev t) as [|c r] eqn:E; [|done].
  apply (f_equal (@rev ascii)) in E. rewrite rev_involutive in E. done.
Qed.

Lemma endswith_slash_replace (t : str) :
  endswith "/" (replace "_" "-" t) = endswith "/" t.
Proof.
  unfold endswith, replace. rewrite <- map_rev.
  destruct (rev t) as [|c r]; [done|]. simpl.
  destruct (bool_decide (c = "_"%char)) eqn:Hc; [|done].
  apply bool_decide_eq_true in Hc. by subst c.
Qed.

Lemma path_join_nil (a : str) : path_join a [] = a.
Proof. done. Qed.

(** The path [os.path.join] builds for an overlay directory whose name
    ends with the non-empty text [t]. *)
Lemma overlay_make_conf (prefix t : str) :
  startswith "/" prefix = false → prefix ≠ [] → t ≠ [] →
  path_join _BINHOST_BASE_DIR [prefix ++ t; "make.conf" : str] =
  "src/overlays/" ++ prefix ++ t ++ dir_sep t ++ "make.conf".
Proof.
  intros Hs Hp Ht. unfold path_join, dir_sep. cbn [fold_left].
  assert (startswith "/" (prefix ++ t) = false) as Hs'.
  { destruct prefix as [|c prefix]; [done|]. simpl in *. done. }
  unfold path_join2 at 2. rewrite Hs'.
  change (eqs _BINHOST_BASE_DIR [] || endswith "/" _BINHOST_BASE_DIR) with false.
  cbn iota. unfold path_join2.
  change (startswith "/" "make.conf") with false. cbn iota.
  unfold eqs. rewrite bool_decide_false by done.
  rewrite orb_false_l.
  rewrite (endswith_slash_app _BINHOST_BASE_DIR), (endswith_slash_app "/"),
    (endswith_slash_app prefix) by (done || by destruct prefix).
  unfold _BINHOST_BASE_DIR.
  destruct (endswith "/" t); simpl; by rewrite <- ?app_assoc.
Qed.

(** C6: every board name falls in exactly one of four cases, decided by
    tests that exclude one another, and each case has its outcome: the host
    name gives the fixed make.conf of the host; any other name with an
    underscore on its first line gives the overlay-variant path, with the
    underscores turned into hyphens; any other name with a hyphen followed
    by a word character gives the overlay path; every other name is
    refused with UnknownBoardFormat. *)
Theorem DetermineMakeConfFile_total_classification :
  (∀ target : str,
     (target = "amd64" ∧
      DetermineMakeConfFile target =
        inr ("src/third_party/chromiumos-overlay/chromeos/config/make.conf.amd64-host" : str)) ∨
     (target ≠ "amd64" ∧ variant_name target ∧
      DetermineMakeConfFile target =
        inr ("src/overlays/overlay-variant-" ++ replace "_" "-" target ++
             dir_sep target ++ "make.conf")) ∨
     (target ≠ "amd64" ∧ ¬ variant_name target ∧ overlay_name target ∧
      DetermineMakeConfFile target =
        inr ("src/overlays/overlay-" ++ target ++ dir_sep target ++ "make.conf")) ∨
     (target ≠ "amd64" ∧ ¬ variant_name target ∧ ¬ overlay_name target ∧
      DetermineMakeConfFile target = inl UnknownBoardFormat)) ∧
  DetermineMakeConfFile "lumpy_variant" =
    inr ("src/overlays/overlay-variant-lumpy-variant/make.conf" : str) ∧
  DetermineMakeConfFile "lumpy-board" =
    inr ("src/overlays/overlay-lumpy-board/make.conf" : str) ∧
  DetermineMakeConfFile "??invalid" = inl UnknownBoardFormat.
Proof.
  split; [|by repeat split].
  intros target. unfold DetermineMakeConfFile, eqs.
  case_bool_decide as Hhost.
  { left. subst target. by split. }
  assert (target ≠ "amd64") as Hne by (intros ->; by apply Hhost).
  right. case_bool_decide as Hv.
  { left. apply variant_re_matches in Hv. repeat split; [done..|].
    destruct Hv as (p & q & -> & _). f_equal. rewrite path_join_nil.
    rewrite overlay_make_conf; [|done|done|by destruct p].
    unfold dir_sep. by rewrite endswith_slash_replace. }
  right. rewrite variant_re_matches in Hv. case_bool_decide as Ho.
  { left. apply overlay_re_matches in Ho. repeat split; [done..|].
    destruct Ho as (p & c & q & -> & _). f_equal. rewrite path_join_nil.
    rewrite overlay_make_conf; [done|done|done|by destruct p]. }
  right. rewrite overlay_re_matches in Ho. by repeat split.
Qed.

(** ** [RevGitPushWithRetry] *)

Section PushWithRetry.

Context (env : Env).

(** One turn of the loop: it ends in one of the three ways, leaves the
    events of that way, and breaks out exactly when the push succeeded. *)
Lemma RevGitPushWithRetry_turn (retries retry : Z) (w : World) :
  ∃ a w',
    try_except
      (RunCommand env "repo sync ." None;; RunCommand env "git push" None;; mret true)
      RunCommandError
      (when (retry <? retries)%Z (sleep (5 * retry));; mret false) w =
    (inr (bool_decide (a = Pushed)), w') ∧
    new_events w w' (attempt_events retries retry a).
Proof.
  unfold try_except. rewrite bind_run, RunCommand_run. cbn zeta.
  destruct (command_succeeds env w "repo sync ." None) eqn:Hsync.
  - rewrite bind_run, RunCommand_run. cbn zeta.
    match goal with |- context [command_succeeds env ?w1 ?c None] =>
      destruct (command_succeeds env w1 c None) eqn:Hpush end.
    + eexists Pushed, _. split; [reflexivity|]. done.
    + unfold when, sleep, attempt_events.
      destruct (retry <? retries)%Z;
        (eexists PushFailed, _; split; [reflexivity|done]).
  - unfold when, sleep, attempt_events.
    destruct (retry <? retries)%Z;
      (eexists SyncFailed, _; split; [reflexivity|done]).
Qed.

Lemma RevGitPushWithRetry_loop_run (retries : Z) (rs : list Z) (w : World) :
  ∃ attempts w',
    new_events w w' (attempts_events retries rs attempts) ∧
    ((RevGitPushWithRetry_loop env retries rs w = (inr tt, w') ∧
      ∃ failed, attempts = failed ++ [Pushed] ∧ (Pushed ∉ failed) ∧
                (length failed < length rs)%nat) ∨
     (RevGitPushWithRetry_loop env retries rs w = (inl GitPushFailed, w') ∧
      (Pushed ∉ attempts) ∧ length attempts = length rs)).
Proof.
  revert w. induction rs as [|retry rs IH]; intros w.
  - exists [], w. split; [done|]. right. repeat split. apply not_elem_of_nil.
  - cbn [RevGitPushWithRetry_loop]. rewrite bind_run.
    destruct (RevGitPushWithRetry_turn retries retry w) as (a & w1 & -> & Hev).
    case_bool_decide as Ha.
    + subst a. exists [Pushed], w1. split.
      { unfold attempts_events. cbn [zip_with concat].
        destruct rs; cbn [zip_with concat]; by rewrite app_nil_r. }
      left. split; [done|]. exists []. repeat split; [apply not_elem_of_nil|simpl; lia].
    + destruct (IH w1) as (attempts & w' & Hev' & Hres).
      exists (a :: attempts), w'. split.
      { unfold attempts_events. cbn [zip_with concat]. by eapply new_events_app. }
      destruct Hres as [(-> & failed & -> & Hf & Hlen)|(-> & Hf & Hlen)].
      * left. split; [done|]. exists (a :: failed).
        repeat split; [|simpl; lia]. rewrite not_elem_of_cons. split; [congruence|done].
      * right. repeat split; [|simpl; lia].
        rewrite not_elem_of_cons. split; [congruence|done].
Qed.

Lemma range_length (lo hi : Z) : length (range lo hi) = Z.to_nat (hi - lo).
Proof. unfold range. by rewrite length_map, length_seq. Qed.

(** C7: the loop makes at most [retries] turns, each running the sync and
    the push; a turn that fails and is not turn number [retries] is
    followed by a wait of five seconds times the number of the turn, and
    only then by the next turn; a successful push ends the loop; and
    GitPushFailed is raised exactly when no turn pushed, that is when all
    the [retries] turns were made and failed. The default of [retries] is
    five. *)
Theorem RevGitPushWithRetry_attempts (retries : Z) (w : World) :
  default_retries = 5%Z ∧
  ∃ (attempts : list Attempt) (w' : World) (r : Exc + unit),
    RevGitPushWithRetry env retries w = (r, w') ∧
    new_events w w' (attempts_events retries (range 1 (retries + 1)) attempts) ∧
    (Z.of_nat (length attempts) ≤ Z.max 0 retries)%Z ∧
    (∀ failed a rest, attempts = failed ++ a :: rest → rest ≠ [] → a ≠ Pushed) ∧
    (r = inr tt ↔ Pushed ∈ attempts) ∧
    (r = inl GitPushFailed ↔ Pushed ∉ attempts) ∧
    (r = inl GitPushFailed → Z.of_nat (length attempts) = Z.max 0 retries).
Proof.
  split; [done|]. unfold RevGitPushWithRetry.
  destruct (RevGitPushWithRetry_loop_run retries (range 1 (retries + 1)) w)
    as (attempts & w' & Hev & Hres).
  rewrite range_length in Hres.
  destruct Hres as [(-> & failed & -> & Hf & Hlen)|(-> & Hf & Hlen)].
  - exists (failed ++ [Pushed]), w', (inr tt). repeat split; try done.
    + rewrite length_app. simpl. lia.
    + intros failed' a rest E Hrest ->.
      destruct rest as [|b rest _] using rev_ind; [done|].
      rewrite app_comm_cons, app_assoc in E. apply app_inj_tail in E as [-> _].
      apply Hf. rewrite elem_of_app, elem_of_cons. tauto.
    + intros _. rewrite elem_of_app, elem_of_cons. tauto.
    + intros H. exfalso. apply H. rewrite elem_of_app, elem_of_cons. tauto.
  - exists attempts, w', (inl GitPushFailed). repeat split; try done.
    + lia.
    + intros failed a rest -> _ ->. apply Hf. rewrite elem_of_app, elem_of_cons. tauto.
    + intros _. lia.
Qed.

End PushWithRetry.

(** ** [_RetryRun], [_GsUpload] and [RemoteUpload] *)

Section Upload.

Context (env : Env).

Lemma unchanged_refl w : unchanged w w.
Proof. by repeat split. Qed.

Lemma unchanged_trans w1 w2 w3 : unchanged w1 w2 → unchanged w2 w3 → unchanged w1 w3.
Proof.
  unfold unchanged. intros (?&?&?&?&?) (?&?&?&?&?).
  repeat split; congruence.
Qed.

(** A command whose outcome does not depend on the world: [_RetryRun] runs
    it once when it succeeds and [_RETRIES] times when it fails. *)
Lemma _RetryRun_loop_const attempts cmd dir ok w :
  (∀ w, command_succeeds env w cmd dir = ok) →
  ∃ w',
    _RetryRun_loop env attempts cmd dir w =
      (inr (ok && negb (bool_decide (attempts = []))), w') ∧
    unchanged w w' ∧
    new_events w w'
      (if ok then match attempts with [] => [] | _ => [Ran cmd dir true] end
       else replicate (length attempts) (Ran cmd dir false)).
Proof.
  intros Hok. revert w. induction attempts as [|a attempts IH]; intros w.
  - exists w. rewrite andb_false_r. repeat split. by destruct ok.
  - cbn [_RetryRun_loop]. rewrite bind_run. unfold try_except.
    rewrite bind_run, RunCommand_run, Hok. cbn zeta. destruct ok.
    + eexists. split; [reflexivity|]. by repeat split.
    + cbn [bool_decide decide_rel]. simpl.
      match goal with |- context [_RetryRun_loop env attempts cmd dir ?w1] =>
        destruct (IH w1) as (w' & -> & Hun & Hev) end.
      exists w'. split; [done|]. split.
      * destruct Hun as (?&?&?&?&?). by repeat split.
      * unfold new_events in *. rewrite Hev. simpl.
        by rewrite <- app_assoc.
Qed.

Lemma _GsUpload_const (fails : str * str → bool) (pair : str * str) w :
  (∀ w, command_succeeds env w (gs_cmd pair.1 pair.2) None = negb (fails pair)) →
  ∃ w',
    _GsUpload env pair w = (inr (upload_result fails pair), w') ∧
    unchanged w w' ∧ new_events w w' (upload_events fails pair).
Proof.
  intros Hok. destruct pair as [local_file remote_file]. cbn [fst snd] in Hok.
  unfold _GsUpload, _RetryRun. rewrite bind_run.
  destruct (_RetryRun_loop_const (range 0 _RETRIES) _ _ _ w Hok) as (w' & -> & Hun & Hev).
  exists w'. unfold upload_result, upload_events.
  destruct (fails (local_file, remote_file)); simpl in *;
    (split; [reflexivity|by split]).
Qed.

(** The pool, for any list of workers: the results come in the order of the
    list, and every worker is run whatever the others returned. *)
Lemma pool_map_GsUpload (fails : str * str → bool) (workers : list (str * str)) w :
  (∀ pair w, pair ∈ workers →
     command_succeeds env w (gs_cmd pair.1 pair.2) None = negb (fails pair)) →
  ∃ w',
    pool_map (_GsUpload env) workers w = (inr (map (upload_result fails) workers), w') ∧
    unchanged w w' ∧
    new_events w w' (concat (map (upload_events fails) workers)).
Proof.
  unfold pool_map. revert w. induction workers as [|pair workers IH]; intros w Hok.
  - exists w. split; [done|]. split; [apply unchanged_refl|done].
  - cbn [mapM]. rewrite bind_run.
    destruct (_GsUpload_const fails pair w) as (w1 & -> & Hun1 & Hev1).
    { intros w0. apply Hok. by left. }
    rewrite bind_run. destruct (IH w1) as (w' & -> & Hun & Hev).
    { intros p w0 Hp. apply Hok. by right. }
    exists w'. split; [done|]. split; [by eapply unchanged_trans|].
    simpl. by eapply new_events_app.
Qed.

(** The set of results does not depend on the order of the workers. *)
Lemma pool_results_order (fails : str * str → bool) (workers workers' : list (str * str)) :
  workers ≡ₚ workers' →
  (list_to_set (map (upload_result fails) workers) : gset (option (str * str))) =
  list_to_set (map (upload_result fails) workers').
Proof. intros Hp. apply list_to_set_perm_L. by apply fmap_Permutation. Qed.

(** The runs of a command by [_RetryRun], in any environment: failed runs
    up to the first run that succeeds, and no more runs than there are
    attempts. *)
Lemma _RetryRun_loop_runs attempts cmd dir w :
  ∃ (ran : bool) (n : nat) w',
    _RetryRun_loop env attempts cmd dir w = (inr ran, w') ∧
    unchanged w w' ∧
    new_events w w'
      (replicate n (Ran cmd dir false) ++ if ran then [Ran cmd dir true] else []) ∧
    (if ran then n < length attempts else n = length attempts)%nat.
Proof.
  revert w. induction attempts as [|a attempts IH]; intros w.
  - exists false, 0%nat, w. split; [done|]. split; [apply unchanged_refl|done].
  - cbn [_RetryRun_loop]. rewrite bind_run. unfold try_except.
    rewrite bind_run, RunCommand_run. cbn zeta.
    destruct (command_succeeds env w cmd dir).
    + eexists true, 0%nat, _. split; [reflexivity|].
      split; [done|]. split; [done|]. simpl. lia.
    + cbn [bool_decide decide_rel]. simpl.
      match goal with |- context [_RetryRun_loop env attempts cmd dir ?w1] =>
        destruct (IH w1) as (ran & n & w' & -> & Hun & Hev & Hn) end.
      exists ran, (S n), w'. split; [done|]. split; [|split].
      * destruct Hun as (?&?&?&?&?). by split.
      * unfold new_events in *. rewrite Hev. simpl.
        by rewrite <- app_assoc.
      * destruct ran; simpl; lia.
Qed.

(** [_GsUpload] in any environment: it returns the pair exactly when the
    command has failed three times. *)
Lemma _GsUpload_runs (pair : str * str) w :
  ∃ (failures : nat) w',
    _GsUpload env pair w =
      (inr (if (failures <? 3)%nat then None else Some pair), w') ∧
    unchanged w w' ∧ (failures ≤ 3)%nat ∧
    new_events w w' (transfer_events pair failures).
Proof.
  destruct pair as [local_file remote_file]. unfold _GsUpload, _RetryRun.
  rewrite bind_run.
  destruct (_RetryRun_loop_runs (range 0 _RETRIES) (gs_cmd local_file remote_file) None w)
    as (ran & n & w' & -> & Hun & Hev & Hn).
  change (length (range 0 _RETRIES)) with 3%nat in Hn.
  exists n, w'. unfold transfer_events. cbn [fst snd].
  destruct ran; cbn [negb].
  - apply Nat.ltb_lt in Hn as Hlt. rewrite Hlt. repeat split; try apply Hun; [lia|done].
  - subst n. repeat split; try apply Hun; done.
Qed.

(** The pool in any environment: every worker is run, whatever the others
    returned. *)
Lemma pool_map_runs (workers : list (str * str)) w :
  NoDup workers →
  ∃ (failures : str * str → nat) w',
    pool_map (_GsUpload env) workers w =
      (inr (map (fun pair => if (failures pair <? 3)%nat then None else Some pair)
              workers), w') ∧
    unchanged w w' ∧ (∀ pair, (failures pair ≤ 3)%nat) ∧
    new_events w w'
      (concat (map (fun pair => transfer_events pair (failures pair)) workers)).
Proof.
  unfold pool_map. intros Hnd. revert w.
  induction Hnd as [|pair workers Hnotin Hnd IH]; intros w.
  - exists (fun _ => 0%nat), w. split; [done|]. split; [apply unchanged_refl|].
    split; [intros _; lia|done].
  - cbn [mapM]. rewrite bind_run.
    destruct (_GsUpload_runs pair w) as (n & w1 & -> & Hun1 & Hn & Hev1).
    rewrite bind_run. destruct (IH w1) as (failures & w' & -> & Hun & Hle & Hev).
    exists (fun p => if decide (p = pair) then n else failures p), w'.
    assert (∀ {B} (g : str * str → nat → B),
              map (fun p => g p (if decide (p = pair) then n else failures p)) workers =
              map (fun p => g p (failures p)) workers) as Hext.
    { intros B g. apply map_ext_in. intros p Hin%list_elem_of_In.
      rewrite decide_False; [done|]. by intros ->. }
    split; [|split; [by eapply unchanged_trans|split]].
    + cbn [map]. rewrite decide_True by done.
      by rewrite (Hext _ (fun p k => if (k <? 3)%nat then None else Some p)).
    + intros p. by case_decide.
    + cbn [map concat]. rewrite decide_True by done.
      rewrite (Hext _ (fun p k => transfer_events p k)).
      by eapply new_events_app.
Qed.

(** C5, as the code has it, in any environment: the command of every pair
    of the mapping is run, whatever became of the others, until it succeeds
    and three times at most. [RemoteUpload] returns the pairs whose command
    has failed three times and, as soon as the command of one pair has
    succeeded, the marker None with them: the set with only None when every
    pair of a mapping that is not empty succeeds, and the empty set for the
    empty mapping only. *)
Theorem RemoteUpload_failed_set (files : gmap str str) w :
  ∃ failed_uploads w' (failures : str * str → nat),
    RemoteUpload env files w = (inr failed_uploads, w') ∧
    unchanged w w' ∧
    new_events w w'
      (concat (map (fun pair => transfer_events pair (failures pair))
                 (map_to_list files))) ∧
    (∀ pair, (failures pair ≤ 3)%nat) ∧
    (∀ local_file remote_file,
       Some (local_file, remote_file) ∈ failed_uploads ↔
       files !! local_file = Some remote_file ∧
       failures (local_file, remote_file) = 3%nat) ∧
    (None ∈ failed_uploads ↔
     ∃ local_file remote_file,
       files !! local_file = Some remote_file ∧
       (failures (local_file, remote_file) < 3)%nat) ∧
    (∀ local_file remote_file,
       files !! local_file = Some remote_file →
       Ran (gs_cmd local_file remote_file) None
         (failures (local_file, remote_file) <? 3)%nat ∈ trace w') ∧
    (files ≠ ∅ →
     (∀ local_file remote_file,
        files !! local_file = Some remote_file →
        (failures (local_file, remote_file) < 3)%nat) →
     failed_uploads = {[ None ]}) ∧
    (files = ∅ → failed_uploads = ∅).
Proof.
  unfold RemoteUpload. rewrite bind_run.
  destruct (pool_map_runs (map_to_list files) w (NoDup_map_to_list files))
    as (failures & w' & -> & Hun & Hle & Hev).
  eexists _, w', failures. split; [reflexivity|]. split; [done|].
  split; [done|]. split; [done|].
  assert (∀ local_file remote_file,
            Some (local_file, remote_file) ∈
              (list_to_set
                 (map (fun pair => if (failures pair <? 3)%nat then None else Some pair)
                    (map_to_list files)) : gset (option (str * str))) ↔
            files !! local_file = Some remote_file ∧
            failures (local_file, remote_file) = 3%nat) as HSome.
  { intros l r. rewrite elem_of_list_to_set, list_elem_of_fmap. split.
    - intros ([l' r'] & E & Hin%elem_of_map_to_list).
      destruct (failures (l', r') <? 3)%nat eqn:Hf; [done|].
      apply Nat.ltb_ge in Hf. specialize (Hle (l', r')). simplify_eq.
      split; [done|]. lia.
    - intros [Hin Hf]. exists (l, r). rewrite Hf.
      split; [done|]. by apply elem_of_map_to_list. }
  assert (None ∈
            (list_to_set
               (map (fun pair => if (failures pair <? 3)%nat then None else Some pair)
                  (map_to_list files)) : gset (option (str * str))) ↔
          ∃ local_file remote_file,
            files !! local_file = Some remote_file ∧
            (failures (local_file, remote_file) < 3)%nat) as HNone.
  { rewrite elem_of_list_to_set, list_elem_of_fmap. split.
    - intros ([l r] & E & Hin%elem_of_map_to_list).
      destruct (failures (l, r) <? 3)%nat eqn:Hf; [|done].
      apply Nat.ltb_lt in Hf. by exists l, r.
    - intros (l & r & Hin & Hf%Nat.ltb_lt). exists (l, r). rewrite Hf.
      split; [done|]. by apply elem_of_map_to_list. }
  split; [done|]. split; [done|]. split; [|split].
  - intros l r Hin. unfold new_events in Hev. rewrite Hev.
    apply elem_of_app. left. apply list_elem_of_In. rewrite <- in_rev.
    apply in_concat. exists (transfer_events (l, r) (failures (l, r))). split.
    + apply (in_map (fun pair => transfer_events pair (failures pair))),
        list_elem_of_In. by apply elem_of_map_to_list.
    + unfold transfer_events. cbn [fst snd]. apply in_or_app.
      destruct (failures (l, r) <? 3)%nat eqn:Hf; [right; by left|left].
      apply Nat.ltb_ge in Hf. specialize (Hle (l, r)).
      replace (failures (l, r)) with 3%nat by lia. by left.
  - intros Hne Hall. apply set_eq. intros [[l r]|].
    + rewrite HSome, elem_of_singleton. split; [|done].
      intros [Hin Hf]. specialize (Hall _ _ Hin). lia.
    + rewrite HNone, elem_of_singleton. split; [done|]. intros _.
      destruct (map_choose files Hne) as (l & r & Hin). exists l, r. eauto.
  - intros ->. by rewrite map_to_list_empty.
Qed.

End Upload.

(** ** [RemoteUpload]: examples *)

(** Both uploads succeed: the set that is returned holds None. *)
Lemma RemoteUpload_all_succeed :
  (RemoteUpload (env_failing (fun _ => false)) two_uploads empty_world).1 =
    inr {[ None ]} ∧
  ({[ None ]} : gset (option (str * str))) ≠ ∅.
Proof.
  split; [vm_compute; reflexivity|].
  intros H. apply (not_elem_of_empty (C:=gset (option (str * str))) None).
  rewrite <- H. by apply elem_of_singleton.
Qed.

(** The transfer of the first file fails twice and then succeeds, that of
    the second fails every time: the second pair is returned, with None for
    the first. *)
Lemma RemoteUpload_failed_set_witness :
  ∃ failed_uploads w',
    RemoteUpload
      (env_flaky (fun cmd =>
         if eqs cmd (gs_cmd "pkgs/a.tbz2" "gs://bucket/a.tbz2") then 2%nat else 5%nat))
      two_uploads empty_world = (inr failed_uploads, w') ∧
    Some ("pkgs/b.tbz2" : str, "gs://bucket/b.tbz2" : str) ∈ failed_uploads ∧
    None ∈ failed_uploads ∧
    Some ("pkgs/a.tbz2" : str, "gs://bucket/a.tbz2" : str) ∉ failed_uploads.
Proof.
  destruct (RemoteUpload_failed_set
              (env_flaky (fun cmd =>
                 if eqs cmd (gs_cmd "pkgs/a.tbz2" "gs://bucket/a.tbz2")
                 then 2%nat else 5%nat))
              two_uploads empty_world)
    as (failed_uploads & w' & failures & Hrun & _ & Hev & Hle & HSome & HNone & _).
  assert (trace w' =
          [Ran (gs_cmd "pkgs/a.tbz2" "gs://bucket/a.tbz2") None true;
           Ran (gs_cmd "pkgs/a.tbz2" "gs://bucket/a.tbz2") None false;
           Ran (gs_cmd "pkgs/a.tbz2" "gs://bucket/a.tbz2") None false;
           Ran (gs_cmd "pkgs/b.tbz2" "gs://bucket/b.tbz2") None false;
           Ran (gs_cmd "pkgs/b.tbz2" "gs://bucket/b.tbz2") None false;
           Ran (gs_cmd "pkgs/b.tbz2" "gs://bucket/b.tbz2") None false]) as Htrace.
  { change w' with (inr failed_uploads : Exc + gset (option (str * str)), w').2.
    rewrite <- Hrun. vm_compute. reflexivity. }
  assert (map_to_list two_uploads =
          [("pkgs/b.tbz2" : str, "gs://bucket/b.tbz2" : str);
           ("pkgs/a.tbz2" : str, "gs://bucket/a.tbz2" : str)]) as Hlist
    by (vm_compute; reflexivity).
  unfold new_events in Hev. rewrite Htrace, Hlist in Hev. clear Htrace Hlist.
  cbn [map concat] in Hev.
  match type of Hev with
  | context [transfer_events ?b (failures ?b) ++ transfer_events ?a (failures ?a) ++ []] =>
      assert (failures a = 2%nat ∧ failures b = 3%nat) as [Ea Eb];
        [pose proof (Hle a) as Ha; pose proof (Hle b) as Hb;
         (destruct (failures a) as [|[|[|[|?]]]]; [..|lia]);
         (destruct (failures b) as [|[|[|[|?]]]]; [..|lia]);
         vm_compute in Hev; first [discriminate Hev | split; reflexivity]|]
  end.
  exists failed_uploads, w'. split; [|split; [|split]].
  - exact Hrun.
  - apply HSome. split; [reflexivity|exact Eb].
  - apply HNone. exists ("pkgs/a.tbz2" : str), ("gs://bucket/a.tbz2" : str).
    split; [reflexivity|]. apply Nat.ltb_lt. exact (f_equal (fun n => n <? 3)%nat Ea).
  - intros [_ Hf]%HSome. pose proof (eq_trans (eq_sym Ea) Hf) as Hc. discriminate Hc.
Defined.

(** ** Exceptions and effects of the steps of [UploadPrebuilt] *)

Section Steps.

Context {binpkg : Binpkg} (env : Env).

(** *** Which exceptions a computation can raise *)

Section RaisesOnly.

Context (P : Exc → Prop).

Lemma raises_only_ret {A} (a : A) : raises_only P (mret a).
Proof. by intros w e w' [=]. Qed.

Lemma raises_only_raise {A} e : P e → raises_only P (@raise A e).
Proof. by intros He w e' w' [= <- _]. Qed.

Lemma raises_only_bind {A B} (c : M A) (k : A → M B) :
  raises_only P c → (∀ a, raises_only P (k a)) → raises_only P (c ≫= k).
Proof.
  intros Hc Hk w e w'. rewrite bind_run.
  destruct (c w) as [[e1|a] w1] eqn:E.
  - intros [= <- <-]. by eapply Hc.
  - apply Hk.
Qed.

Lemma raises_only_try_except {A} (body handler : M A) exc :
  raises_only P handler → raises_only (fun e => P e ∨ e = exc) body →
  raises_only P (try_except body exc handler).
Proof.
  intros Hh Hb w e w'. unfold try_except.
  destruct (body w) as [[e1|a] w1] eqn:E; [|done].
  case_bool_decide as He.
  - apply Hh.
  - intros [= <- <-]. by destruct (Hb _ _ _ E).
Qed.

Lemma raises_only_try_finally {A} (body : M A) (cleanup : M unit) :
  raises_only P body → raises_only P cleanup →
  raises_only P (try_finally body cleanup).
Proof.
  intros Hb Hc w e w'. unfold try_finally.
  destruct (body w) as [r w1] eqn:Eb.
  destruct (cleanup w1) as [[e2|[]] w2] eqn:Ec.
  - intros [= <- <-]. by eapply Hc.
  - intros [= -> <-]. by eapply Hb.
Qed.

Lemma raises_only_when (cond : bool) (body : M unit) :
  raises_only P body → raises_only P (when cond body).
Proof. intros Hb. destruct cond; [done|apply raises_only_ret]. Qed.

Lemma raises_only_no_exception {A} (c : M A) :
  (∀ w, ∃ a w', c w = (inr a, w')) → raises_only P c.
Proof. intros Hc w e w' E. destruct (Hc w) as (a & w1 & E'). congruence. Qed.

Lemma raises_only_get : raises_only P get.
Proof. by intros w e w' [=]. Qed.

Lemma raises_only_abspath path : raises_only P (abspath env path).
Proof. by intros w e w' [=]. Qed.

Lemma raises_only_getcwd : raises_only P getcwd.
Proof. by intros w e w' [=]. Qed.

Lemma raises_only_log ev : raises_only P (log ev).
Proof. by intros w e w' [=]. Qed.

Lemma raises_only_write_file path contents : raises_only P (write_file env path contents).
Proof. by intros w e w' [=]. Qed.

Lemma raises_only_isfile path : raises_only P (isfile env path).
Proof. by intros w e w' [=]. Qed.

Lemma raises_only_isdir path : raises_only P (isdir env path).
Proof. by intros w e w' [=]. Qed.

Lemma raises_only_makedirs path : raises_only P (makedirs env path).
Proof. by intros w e w' [=]. Qed.

Lemma raises_only_chdir path : P OSError → raises_only P (chdir env path).
Proof.
  intros HP w e w'. unfold chdir. destruct (eqs path []); [|by intros [=]].
  by intros [= <- _].
Qed.

Lemma raises_only_read_file path : P IOError → raises_only P (read_file env path).
Proof.
  intros HP w e w'. unfold read_file. rewrite !bind_run. simpl.
  rewrite bind_run. simpl.
  destruct (files w !! normpath env (path_join2 (cwd w) path));
    [by intros [=]|]. by intros [= <- _].
Qed.

Lemma raises_only_RunCommand cmd dir :
  P RunCommandError → raises_only P (RunCommand env cmd dir).
Proof.
  intros HP w e w'. rewrite RunCommand_run. cbn zeta.
  destruct (command_succeeds env w cmd dir); [by intros [=]|]. by intros [= <- _].
Qed.

Lemma raises_only_UpdateLocalFile filename value key :
  P IOError → raises_only P (UpdateLocalFile env filename value key).
Proof.
  intros HP. apply raises_only_bind; [by apply raises_only_read_file|].
  intros contents. apply raises_only_write_file.
Qed.

End RaisesOnly.

Lemma raises_only_impl {A} (P Q : Exc → Prop) (c : M A) :
  (∀ e, P e → Q e) → raises_only P c → raises_only Q c.
Proof. intros HPQ Hc w e w' E. by eapply HPQ, Hc. Qed.

Lemma raises_only_RevGitPushWithRetry_loop P retries rs :
  P GitPushFailed → raises_only P (RevGitPushWithRetry_loop env retries rs).
Proof.
  intros HP. induction rs as [|retry rs IH]; [by apply raises_only_raise|].
  cbn [RevGitPushWithRetry_loop]. apply raises_only_bind.
  - apply raises_only_try_except.
    + apply raises_only_bind; [|intros; apply raises_only_ret].
      apply raises_only_when, raises_only_log.
    + apply raises_only_bind; [apply raises_only_RunCommand; by right|].
      intros _. apply raises_only_bind; [apply raises_only_RunCommand; by right|].
      intros _. apply raises_only_ret.
  - intros [|]; [apply raises_only_ret|done].
Qed.

Lemma raises_only_RevGitFile filename value retries key :
  raises_only config_exc (RevGitFile env filename value retries key).
Proof.
  unfold RevGitFile, config_exc.
  apply raises_only_bind; [apply raises_only_getcwd|]. intros old_cwd.
  apply raises_only_bind; [apply raises_only_chdir; tauto|]. intros _.
  apply raises_only_bind; [apply raises_only_RunCommand; tauto|]. intros _.
  apply raises_only_bind; [apply raises_only_RunCommand; tauto|]. intros _.
  apply raises_only_bind; [apply raises_only_RunCommand; tauto|]. intros _.
  apply raises_only_try_finally.
  - apply raises_only_bind; [apply raises_only_UpdateLocalFile; tauto|]. intros _.
    apply raises_only_bind; [apply raises_only_RunCommand; tauto|]. intros _.
    apply raises_only_bind; [apply raises_only_RunCommand; tauto|]. intros _.
    apply raises_only_RevGitPushWithRetry_loop. tauto.
  - apply raises_only_bind; [apply raises_only_RunCommand; tauto|]. intros _.
    apply raises_only_chdir. tauto.
Qed.

Lemma raises_only_UpdateBinhostConfFile path key value :
  raises_only config_exc (UpdateBinhostConfFile env path key value).
Proof.
  unfold UpdateBinhostConfFile, config_exc.
  apply raises_only_bind; [apply raises_only_abspath|]. intros abs.
  apply raises_only_bind; [apply raises_only_isdir|]. intros is_dir.
  apply raises_only_bind; [apply raises_only_when, raises_only_makedirs|]. intros _.
  apply raises_only_bind; [apply raises_only_isfile|]. intros is_file.
  apply raises_only_bind; [apply raises_only_when, raises_only_write_file|]. intros _.
  apply raises_only_bind; [apply raises_only_UpdateLocalFile; tauto|]. intros _.
  apply raises_only_bind; [apply raises_only_RunCommand; tauto|]. intros _.
  apply raises_only_RunCommand. tauto.
Qed.

End Steps.

(** ** The upload step only runs transfer commands *)

Section Transfers.

Context {binpkg : Binpkg} (env : Env).

Lemma ran_only_refl P w : ran_only P w w.
Proof. split; [apply unchanged_refl|]. exists []. by split. Qed.

Lemma ran_only_trans P w1 w2 w3 :
  ran_only P w1 w2 → ran_only P w2 w3 → ran_only P w1 w3.
Proof.
  intros [Hu1 (e1 & He1 & Hf1)] [Hu2 (e2 & He2 & Hf2)].
  split; [by eapply unchanged_trans|].
  exists (e1 ++ e2). split; [by eapply new_events_app|by apply Forall_app].
Qed.

Lemma ran_only_impl (P Q : str → Prop) w w' :
  (∀ cmd, P cmd → Q cmd) → ran_only P w w' → ran_only Q w w'.
Proof.
  intros HPQ [Hu (evs & Hev & Hf)]. split; [done|]. exists evs. split; [done|].
  eapply Forall_impl; [exact Hf|]. intros e (cmd & dir & ok & -> & Hc). eauto 6.
Qed.

Section Relates.

Context (R : World → World → Prop).
Context (R_refl : ∀ w, R w w) (R_trans : ∀ w1 w2 w3, R w1 w2 → R w2 w3 → R w1 w3).

Lemma relates_ret {A} (a : A) : relates R (mret a).
Proof using R_refl. intros w r w' [= _ <-]. apply R_refl. Qed.

Lemma relates_raise {A} e : relates R (@raise A e).
Proof using R_refl. intros w r w' [= _ <-]. apply R_refl. Qed.

Lemma relates_bind {A B} (c : M A) (k : A → M B) :
  relates R c → (∀ a, relates R (k a)) → relates R (c ≫= k).
Proof using R_trans.
  intros Hc Hk w r w'. rewrite bind_run.
  destruct (c w) as [[e1|a] w1] eqn:E.
  - intros [= <- <-]. by eapply Hc.
  - intros E'. eapply R_trans; [by eapply Hc|by eapply Hk].
Qed.

Lemma relates_when (cond : bool) (body : M unit) :
  relates R body → relates R (when cond body).
Proof using R_refl. intros Hb. destruct cond; [done|apply relates_ret]. Qed.

Lemma relates_forM {A} (xs : list A) (body : A → M unit) :
  (∀ x, x ∈ xs → relates R (body x)) → relates R (forM xs body).
Proof using R_refl R_trans.
  induction xs as [|x xs IH]; intros Hb; [apply relates_ret|].
  cbn [forM]. apply relates_bind.
  - apply Hb. by left.
  - intros _. apply IH. intros y Hy. apply Hb. by right.
Qed.

Lemma relates_mapM {A B} (f : A → M B) (xs : list A) :
  (∀ x, relates R (f x)) → relates R (mapM f xs).
Proof using R_refl R_trans.
  intros Hf. induction xs as [|x xs IH]; [apply relates_ret|].
  cbn [mapM]. apply relates_bind; [done|]. intros y.
  apply relates_bind; [done|]. intros ys. apply relates_ret.
Qed.

End Relates.

Lemma relates_RunCommand cmd dir :
  relates (ran_only (fun c => c = cmd)) (RunCommand env cmd dir).
Proof.
  intros w r w'. rewrite RunCommand_run. cbn zeta. intros [= _ <-].
  split; [done|]. eexists [_]. split; [done|]. repeat constructor. eauto.
Qed.

(** [_RetryRun] runs its command and nothing else, and raises nothing. *)
Lemma relates__RetryRun_loop attempts cmd dir :
  relates (ran_only (fun c => c = cmd)) (_RetryRun_loop env attempts cmd dir).
Proof.
  induction attempts as [|a attempts IH];
    [apply relates_ret, ran_only_refl|].
  cbn [_RetryRun_loop].
  apply relates_bind; [apply ran_only_trans| |].
  - intros w r w'. unfold try_except. rewrite bind_run.
    destruct (RunCommand env cmd dir w) as [[e|[]] w1] eqn:E.
    + case_bool_decide.
      * intros [= _ <-]. by eapply relates_RunCommand.
      * intros [= _ <-]. by eapply relates_RunCommand.
    + intros [= _ <-]. by eapply relates_RunCommand.
  - intros [|]; [apply relates_ret, ran_only_refl|done].
Qed.

Lemma raises_only__RetryRun_loop P attempts cmd dir :
  raises_only P (_RetryRun_loop env attempts cmd dir).
Proof.
  induction attempts as [|a attempts IH]; [apply raises_only_ret|].
  cbn [_RetryRun_loop]. apply raises_only_bind.
  - apply raises_only_try_except; [apply raises_only_ret|].
    apply raises_only_bind; [apply raises_only_RunCommand; by right|].
    intros _. apply raises_only_ret.
  - intros [|]; [apply raises_only_ret|done].
Qed.

Lemma gs_cmd_is_transfer local_file remote_file : is_transfer (gs_cmd local_file remote_file).
Proof. left. done. Qed.

Lemma relates__GsUpload args :
  relates (ran_only is_transfer) (_GsUpload env args).
Proof.
  destruct args as [local_file remote_file]. unfold _GsUpload.
  apply relates_bind; [apply ran_only_trans| |].
  - intros w r w' E. eapply ran_only_impl; [|by eapply relates__RetryRun_loop].
    intros cmd ->. apply gs_cmd_is_transfer.
  - intros ran. destruct (negb ran); apply relates_ret, ran_only_refl.
Qed.

Lemma relates_RemoteUpload files :
  relates (ran_only is_transfer) (RemoteUpload env files).
Proof.
  unfold RemoteUpload, pool_map.
  apply relates_bind; [apply ran_only_trans| |].
  - apply relates_mapM; [apply ran_only_refl|apply ran_only_trans|].
    apply relates__GsUpload.
  - intros result. apply relates_ret, ran_only_refl.
Qed.

Lemma relates_GenerateUploadDict_loop base_local_path base_remote_path pkgs upload_files :
  relates (ran_only is_transfer)
    (GenerateUploadDict_loop env base_local_path base_remote_path pkgs upload_files).
Proof.
  revert upload_files. induction pkgs as [|pkg pkgs IH]; intros upload_files.
  - apply relates_ret, ran_only_refl.
  - cbn [GenerateUploadDict_loop]. destruct (negb (path_exists env _)).
    + apply relates_raise, ran_only_refl.
    + apply IH.
Qed.

Lemma relates_UploadPrebuilt_upload upload_location package_path remote_location
    uploads tmp_packages_file :
  relates (ran_only is_transfer)
    (UploadPrebuilt_upload env upload_location package_path remote_location uploads
       tmp_packages_file).
Proof.
  unfold UploadPrebuilt_upload. destruct (startswith "gs://" upload_location).
  - apply relates_bind; [apply ran_only_trans| |].
    { apply relates_GenerateUploadDict_loop. }
    intros upload_files. apply relates_bind; [apply ran_only_trans| |].
    { apply relates_RemoteUpload. }
    intros failed_uploads. apply relates_when; [apply ran_only_refl|].
    destruct (bool_decide _); apply relates_raise, ran_only_refl.
  - destruct (split1 ":" remote_location) as [|ssh_server [|remote_path [|]]];
      try (apply relates_raise, ran_only_refl).
    apply relates_forM; [apply ran_only_refl|apply ran_only_trans|].
    intros cmd Hcmd. apply relates_bind; [apply ran_only_trans| |].
    + intros w r w' E. eapply ran_only_impl; [|by eapply relates__RetryRun_loop].
      intros c ->. rewrite elem_of_app, !elem_of_cons in Hcmd.
      destruct Hcmd as [[->| [->|Hnil]]|Hcmd].
      * right. by left.
      * right. by right.
      * by apply elem_of_nil in Hnil.
      * destruct (negb (eqs _ [])); [|by apply elem_of_nil in Hcmd].
        apply list_elem_of_singleton in Hcmd as ->. right. by right.
    + intros ran. apply relates_when; [apply ran_only_refl|].
      apply relates_raise, ran_only_refl.
Qed.

End Transfers.

(** ** [UploadPrebuilt]: a failed upload *)

Section UploadFailure.

Context {binpkg : Binpkg} (env : Env).

Lemma DetermineMakeConfFile_exc target e :
  DetermineMakeConfFile target = inl e → e = KeyError ∨ e = UnknownBoardFormat.
Proof.
  unfold DetermineMakeConfFile.
  destruct (eqs _HOST_TARGET target).
  { destruct (_PREBUILT_MAKE_CONF target); [done|]. intros [= <-]. by left. }
  repeat case_bool_decide; try done. intros [= <-]. by right.
Qed.

(** Finding the paths of the target changes nothing, and fails on an
    unknown board name only. *)
Lemma UploadPrebuilt_target_run build_path version board w r w' :
  UploadPrebuilt_target build_path version board w = (r, w') →
  w' = w ∧ ∀ e, r = inl e → e = KeyError ∨ e = UnknownBoardFormat.
Proof.
  unfold UploadPrebuilt_target. destruct (negb (truthy board)).
  - destruct (_PREBUILT_MAKE_CONF _HOST_TARGET); intros [= <- <-]; split; try done.
    intros e [= <-]. by left.
  - destruct (DetermineMakeConfFile (default [] board)) as [e0|make_conf] eqn:E;
      intros [= <- <-]; split; try done.
    intros e [= <-]. by eapply DetermineMakeConfFile_exc.
Qed.

(** The two config steps raise neither UploadFailed nor TypeError. *)
Lemma config_steps_exc git_sync sync_binhost_conf git_file binhost_conf url_value
    retries key w e w' :
  (when git_sync (RevGitFile env git_file url_value retries key);;
   when sync_binhost_conf (UpdateBinhostConfFile env binhost_conf key url_value)) w =
    (inl e, w') →
  config_exc e.
Proof.
  apply (raises_only_bind config_exc).
  - apply raises_only_when, raises_only_RevGitFile.
  - intros _. apply raises_only_when, raises_only_UpdateBinhostConfFile.
Qed.

(** C8: when [UploadPrebuilt] ends with UploadFailed - or with the
    TypeError that building the message of UploadFailed raises when some
    uploads failed and others succeeded - neither config step was reached:
    the run is the run that the same call makes with [git_sync] and
    [sync_binhost_conf] off, it ran transfer commands only, and it left
    every file, the working directory and the rest of the state as they
    were. *)
Theorem UploadPrebuilt_upload_failure
    (build_path upload_location version binhost_base_url : str) (board : option str)
    (git_sync : bool) (git_sync_retries : Z) (key : str)
    (pkg_indexes : list PackageIndex) (sync_binhost_conf : bool)
    (w w' : World) (e : Exc) :
  UploadPrebuilt env build_path upload_location version binhost_base_url board
    git_sync git_sync_retries key pkg_indexes sync_binhost_conf w = (inl e, w') →
  e = UploadFailed ∨ e = TypeError →
  UploadPrebuilt env build_path upload_location version binhost_base_url board
    false git_sync_retries key pkg_indexes false w = (inl e, w') ∧
  files w' = files w ∧
  ran_only is_transfer w w'.
Proof.
  intros Hrun He. unfold UploadPrebuilt in *. rewrite bind_run in *.
  destruct (UploadPrebuilt_target build_path version board w)
    as [[e0|[[[[package_path url_suffix] package_string] git_file] binhost_conf]] w1]
    eqn:Ht.
  { apply UploadPrebuilt_target_run in Ht as [_ Ht].
    injection Hrun as <- <-. destruct (Ht _ eq_refl), He; congruence. }
  apply UploadPrebuilt_target_run in Ht as [-> _].
  rewrite bind_run in *. cbn [get] in *.
  destruct (ResolveDuplicateUploads _ _) as [pkg_index uploads].
  rewrite bind_run in *.
  destruct (UploadPrebuilt_upload env upload_location package_path _ uploads _ w)
    as [[e1|[]] w2] eqn:Hu.
  - injection Hrun as <- <-. split; [done|].
    apply relates_UploadPrebuilt_upload in Hu. split; [apply Hu|done].
  - apply config_steps_exc in Hrun.
    destruct Hrun as [?|[?|[?|?]]], He; congruence.
Qed.

End UploadFailure.

(** ** [main]: filtering requested and no filter found *)

Section Filters.

Context {binpkg : Binpkg} (env : Env).

(** C9: with the build path and the upload location given and filtering
    turned on, when no file under the private overlay directory yields a
    filter, [LoadPrivateFilters] raises FiltersEmpty and so does [main];
    at that point [main] has set BOTO_CONFIG in the environment and done
    nothing else: no command was run, no index fetched, no file written,
    and the filter set is as it was. *)
Theorem main_filters_empty (options : Options) (w : World) :
  truthy (opt_build_path options) = true →
  truthy (opt_upload options) = true →
  opt_filters options = true →
  Forall (fun file => ebuild_filter file = None)
    (ListFiles env
       (path_join (default [] (opt_build_path options)) [_PRIVATE_OVERLAY_DIR])) →
  LoadPrivateFilters env (default [] (opt_build_path options)) w = (inl FiltersEmpty, w) ∧
  main env options w =
    (inl FiltersEmpty,
     mkWorld (files w) (dirs w) (cwd w)
       (<[("BOTO_CONFIG" : str) := _BOTO_CONFIG]> (environ w))
       (_FILTER_PACKAGES w) (trace w)).
Proof.
  intros Hbuild Hupload Hfilters Hscan.
  assert (∀ w0, LoadPrivateFilters env (default [] (opt_build_path options)) w0 =
                (inl FiltersEmpty, w0)) as Hload.
  { intros w0. unfold LoadPrivateFilters.
    rewrite bool_decide_true; [done|].
    induction Hscan as [|file files Hfile Hfiles IH]; [done|].
    cbn [omap list_omap]. by rewrite Hfile. }
  split; [apply Hload|].
  unfold main. rewrite bind_run. cbn [get].
  rewrite bind_run. unfold set_environ at 1. cbn [environ files dirs cwd _FILTER_PACKAGES trace].
  rewrite Hbuild, Hupload, Hfilters. cbn [negb when].
  rewrite !bind_run. cbn [mret M_ret].
  rewrite bind_run. cbn [mret M_ret]. by rewrite bind_run, Hload.
Qed.

End Filters.

(** ** Examples of runs *)

(** The overlay directory holds no ebuild: [main] stops with FiltersEmpty
    and an empty trace. *)
Lemma main_filters_empty_witness :
  LoadPrivateFilters (env_failing (fun _ => false)) "/b/cbuild/build" empty_world =
    (inl FiltersEmpty, empty_world) ∧
  main (binpkg := binpkg_example) (env_failing (fun _ => false)) options_example
    empty_world =
    (inl FiltersEmpty,
     mkWorld ∅ ∅ "/" (<[("BOTO_CONFIG" : str) := _BOTO_CONFIG]> ∅) ∅ []).
Proof.
  apply (main_filters_empty (binpkg := binpkg_example) (env_failing (fun _ => false))
           options_example empty_world); try reflexivity.
  constructor.
Defined.

(** Every command fails: the upload to Google Storage fails, and the run is
    the one without the two config steps. *)
Lemma UploadPrebuilt_upload_failure_witness :
  ∃ w',
    UploadPrebuilt (binpkg := binpkg_example) (env_failing (fun _ => true))
      "/b/cbuild/build" "gs://chromeos-prebuilt" "v1" _BINHOST_BASE_URL None
      true 5 "PORTAGE_BINHOST" [] true empty_world = (inl UploadFailed, w') ∧
    UploadPrebuilt (binpkg := binpkg_example) (env_failing (fun _ => true))
      "/b/cbuild/build" "gs://chromeos-prebuilt" "v1" _BINHOST_BASE_URL None
      false 5 "PORTAGE_BINHOST" [] false empty_world = (inl UploadFailed, w') ∧
    files w' = files empty_world.
Proof.
  destruct (UploadPrebuilt (binpkg := binpkg_example) (env_failing (fun _ => true))
              "/b/cbuild/build" "gs://chromeos-prebuilt" "v1" _BINHOST_BASE_URL None
              true 5 "PORTAGE_BINHOST" [] true empty_world) as [r w'] eqn:E.
  assert (r = inl UploadFailed) as ->.
  { change r with (r, w').1. rewrite <- E. vm_compute. reflexivity. }
  exists w'. split; [reflexivity|].
  destruct (UploadPrebuilt_upload_failure (binpkg := binpkg_example) _ _ _ _ _ _ _ _ _ _ _
              _ _ _ E (or_introl eq_refl)) as (H1 & H2 & _).
  split; [exact H1|exact H2].
Defined.

(** The same over the remote shell: the first command fails three times. *)
Example UploadPrebuilt_ssh_failure :
  let run :=
    UploadPrebuilt (binpkg := binpkg_example) (env_failing (fun _ => true))
      "/b/cbuild/build" "host:/tmp" "v1" _BINHOST_BASE_URL None
      true 5 "PORTAGE_BINHOST" [] true empty_world in
  run.1 = inl UploadFailed ∧
  trace run.2 =
    replicate 3
      (Ran ("ssh host mkdir -p /tmp/host/amd64/v1/packages" : str)
           (Some ("/b/cbuild/build/chroot/var/lib/portage/pkgs" : str)) false).
Proof. split; vm_compute; reflexivity. Qed.

(** The push fails five times: four waits of 5, 10, 15 and 20 seconds, and
    GitPushFailed. *)
Example RevGitPushWithRetry_five_failures :
  let run := RevGitPushWithRetry (env_failing (fun cmd => eqs cmd "git push")) 5 empty_world in
  run.1 = inl GitPushFailed ∧
  omap (fun e => match e with Slept secs => Some secs | _ => None end) (rev (trace run.2)) =
    [5; 10; 15; 20]%Z ∧
  length (filter (fun e => e = Ran ("git push" : str) None false) (trace run.2)) = 5%nat.
Proof. repeat split; vm_compute; reflexivity. Qed.

(** ** Further properties of the functions of the script *)

(** *** [UpdateLocalFile]: the number of lines *)

(** X1: For a key and a value without a newline, the file that is written
    has one line for each line of the file that was read, and one more
    exactly when no line assigned the key. *)
Theorem UpdateLocalFile_line_count (contents key value : str) :
  NL ∉ key → NL ∉ value →
  length (file_lines (UpdateLocalFile_text contents value key)) =
  (length (file_lines contents) +
   if existsb (is_key_line key) (file_lines contents) then 0 else 1)%nat.
Proof.
  intros Hk Hv.
  rewrite file_lines_UpdateLocalFile_text, UpdateLocalFile_lines_file_lines by done.
  apply (UpdateLocalFile_loop_length key _ false), file_lines_no_newline.
Qed.

(** *** [ShouldFilterPackage] and the filters of [LoadPrivateFilters] *)

Lemma startswith_spec (p s : str) : startswith p s = true ↔ ∃ b, s = p ++ b.
Proof.
  revert s. induction p as [|c p IH]; intros s; simpl.
  - split; [by exists s|done].
  - destruct s as [|d s].
    + split; [done|]. by intros (b & [=]).
    + rewrite andb_true_iff, bool_decide_eq_true, IH. split.
      * intros [-> (b & ->)]. by exists b.
      * intros (b & [= -> ->]). split; [done|by exists b].
Qed.

Lemma contains_spec (p s : str) : contains p s = true ↔ ∃ a b, s = a ++ p ++ b.
Proof.
  induction s as [|c s IH]; cbn [contains]; rewrite orb_true_iff, startswith_spec.
  - split.
    + intros [(b & E)|?]; [|done]. by exists [], b.
    + intros (a & b & E). left. destruct a; [by exists b|done].
  - rewrite IH. split.
    + intros [(b & E)|(a & b & ->)]; [by exists [], b|by exists (c :: a), b].
    + intros (a & b & E). destruct a as [|c' a]; [left; by exists b|].
      right. injection E as -> ->. by exists a, b.
Qed.

(** X8: A path is filtered exactly when one of the names of the filter set
    occurs in it as a substring. *)
Theorem ShouldFilterPackage_substring (filter_packages : gset str) (file_path : str) :
  ShouldFilterPackage filter_packages file_path = true ↔
  ∃ name, name ∈ filter_packages ∧ ∃ a b, file_path = a ++ name ++ b.
Proof.
  unfold ShouldFilterPackage. rewrite existsb_exists. split.
  - intros (name & Hin & Hc). exists name. split.
    + by apply elem_of_elements, list_elem_of_In.
    + by apply contains_spec.
  - intros (name & Hin & Hc). exists name. split.
    + by apply list_elem_of_In, elem_of_elements.
    + by apply contains_spec.
Qed.

Lemma lazy_Some_inv {A} (k : cls) (rest : str → option A) (s t : str) (r : A) :
  lazy k rest s = Some (t, r) →
  ∃ q, s = t ++ q ∧ Forall (fun c => cls_ok k c = true) t ∧ rest q = Some r.
Proof.
  revert t. induction s as [|c s IH]; intros t; simpl.
  - destruct (rest []) eqn:E; [|done]. intros [= <- <-]. by exists [].
  - destruct (rest (c :: s)) eqn:E.
    { intros [= <- <-]. by exists (c :: s). }
    destruct (cls_ok k c) eqn:Hc; [|done].
    destruct (lazy k rest s) as [[t' r']|] eqn:El; [|done].
    intros [= <- <-]. destruct (IH t' eq_refl) as (q & -> & Ht & Hq).
    exists q. by repeat split; [constructor|].
Qed.

(** X7: A filter comes from a file whose name ends in .ebuild: it is the part
    of the base name before a hyphen that a digit follows, and it holds no
    newline. *)
Theorem ebuild_filter_name (file name : str) :
  ebuild_filter file = Some name →
  endswith ".ebuild" file = true ∧
  ∃ d rest, basename file = name ++ "-"%char :: d :: rest ∧
            is_digit d = true ∧ (NL ∉ name).
Proof.
  unfold ebuild_filter. destruct (endswith ".ebuild" file); [|done].
  intros H. split; [done|]. revert H.
  unfold ebuild_re. cbn [app re_match].
  destruct (lazy Dot _ (basename file)) as [[t r]|] eqn:El; [|done].
  cbn [option_map fst snd]. intros [= <-].
  apply lazy_Some_inv in El as (q & -> & Ht & Hq).
  destruct q as [|c q]; [done|]. cbn [cls_ok] in Hq.
  case_bool_decide as Hc; [subst c|done].
  destruct q as [|d q]; [done|]. destruct (is_digit d) eqn:Hd; [|done].
  exists d, q. by rewrite <- Forall_Dot.
Qed.

Lemma ebuild_filter_name_witness :
  endswith ".ebuild" "/o/chromeos-base/foo-bar-0.0.1-r3.ebuild" = true ∧
  ∃ d rest,
    basename "/o/chromeos-base/foo-bar-0.0.1-r3.ebuild" = "foo-bar" ++ "-"%char :: d :: rest ∧
    is_digit d = true ∧ (NL ∉ ("foo-bar" : str)).
Proof.
  apply (ebuild_filter_name "/o/chromeos-base/foo-bar-0.0.1-r3.ebuild" "foo-bar").
  reflexivity.
Defined.

(** *** [_RetryRun]: a bounded number of runs *)

Section RetryRun.

Context (env : Env).

(** X9: Whatever the commands do, [_RetryRun] raises nothing and changes
    nothing but the trace: it runs its command until a run succeeds, three
    times at most, and returns False exactly after three failed runs. *)
Theorem _RetryRun_bounded cmd dir w :
  ∃ (ran : bool) (n : nat) w',
    _RetryRun env cmd dir w = (inr ran, w') ∧
    unchanged w w' ∧
    new_events w w'
      (replicate n (Ran cmd dir false) ++ if ran then [Ran cmd dir true] else []) ∧
    (if ran then n < 3 else n = 3)%nat.
Proof. apply (_RetryRun_loop_runs env (range 0 _RETRIES)). Qed.

End RetryRun.

(** *** [RevGitPushWithRetry] without a turn *)

(** X2: With a number of retries that is not positive, no command is run and
    GitPushFailed is raised at once. *)
Theorem RevGitPushWithRetry_no_turn (env : Env) (retries : Z) (w : World) :
  (retries ≤ 0)%Z →
  RevGitPushWithRetry env retries w = (inl GitPushFailed, w).
Proof.
  intros Hr. unfold RevGitPushWithRetry, range.
  replace (Z.to_nat (retries + 1 - 1)) with 0%nat by lia. done.
Qed.

Lemma RevGitPushWithRetry_no_turn_witness :
  RevGitPushWithRetry (env_failing (fun _ => false)) 0 empty_world =
    (inl GitPushFailed, empty_world).
Proof. apply RevGitPushWithRetry_no_turn. lia. Defined.

(** *** [LoadPrivateFilters]: what the scan adds *)

(** X6: The scan either finds no filter, raises FiltersEmpty and leaves the
    world as it was, or returns after adding to the global set the filters
    of the files listed under the private overlay directory, and nothing
    else: no name leaves the set, and nothing but the set changes. *)
Theorem LoadPrivateFilters_adds (env : Env) (build_path : str) (w : World) :
  let listing := ListFiles env (path_join build_path [_PRIVATE_OVERLAY_DIR]) in
  (LoadPrivateFilters env build_path w = (inl FiltersEmpty, w) ∧
   ∀ file, file ∈ listing → ebuild_filter file = None) ∨
  (∃ w',
     LoadPrivateFilters env build_path w = (inr tt, w') ∧
     files w' = files w ∧ dirs w' = dirs w ∧ cwd w' = cwd w ∧
     environ w' = environ w ∧ trace w' = trace w ∧
     (∃ file name, file ∈ listing ∧ ebuild_filter file = Some name) ∧
     ∀ name,
       name ∈ _FILTER_PACKAGES w' ↔
       name ∈ _FILTER_PACKAGES w ∨
       ∃ file, file ∈ listing ∧ ebuild_filter file = Some name).
Proof.
  intros listing. unfold LoadPrivateFilters. fold listing.
  case_bool_decide as Hnil.
  - left. split; [done|]. intros file Hin.
    destruct (ebuild_filter file) as [name|] eqn:E; [|done].
    assert (name ∈ omap ebuild_filter listing) as Hn
      by (apply list_elem_of_omap; eauto).
    rewrite Hnil in Hn. by apply elem_of_nil in Hn.
  - right. eexists. split; [reflexivity|]. cbn.
    repeat (split; [done|]). split.
    + destruct (omap ebuild_filter listing) as [|name names] eqn:E; [done|].
      assert (name ∈ omap ebuild_filter listing) as Hn by (rewrite E; by left).
      apply list_elem_of_omap in Hn as (file & Hin & Hf). eauto.
    + intros name. rewrite elem_of_union, elem_of_list_to_set, list_elem_of_omap.
      done.
Qed.

(** *** [RemoteUpload] in any environment, and [GenerateUploadDict] *)

Section UploadSet.

Context {binpkg : Binpkg} (env : Env).

Lemma _GsUpload_returns (pair : str * str) w :
  ∃ result w', _GsUpload env pair w = (inr result, w') ∧
               (result = None ∨ result = Some pair).
Proof.
  destruct pair as [local_file remote_file]. unfold _GsUpload, _RetryRun.
  rewrite bind_run.
  destruct (_RetryRun_loop_runs env (range 0 _RETRIES)
              (gs_cmd local_file remote_file) None w)
    as (ran & n & w' & -> & _).
  destruct ran; eexists _, w'; (split; [reflexivity|]); [by left|by right].
Qed.

Lemma pool_map_returns (workers : list (str * str)) w :
  ∃ results w',
    pool_map (_GsUpload env) workers w = (inr results, w') ∧
    Forall2 (fun pair result => result = None ∨ result = Some pair) workers results.
Proof.
  unfold pool_map. revert w. induction workers as [|pair workers IH]; intros w.
  - exists [], w. by split.
  - cbn [mapM]. rewrite bind_run.
    destruct (_GsUpload_returns pair w) as (result & w1 & -> & Hr).
    rewrite bind_run. destruct (IH w1) as (results & w' & -> & Hrs).
    exists (result :: results), w'. split; [done|by constructor].
Qed.

(** X10: Whatever the commands do, [RemoteUpload] raises nothing, runs transfer
    commands only, and returns a set that is not empty unless the mapping
    is, and whose pairs are pairs of the mapping. *)
Theorem RemoteUpload_returns (files : gmap str str) w :
  ∃ failed_uploads w',
    RemoteUpload env files w = (inr failed_uploads, w') ∧
    ran_only is_transfer w w' ∧
    (∀ local_file remote_file,
       Some (local_file, remote_file) ∈ failed_uploads →
       files !! local_file = Some remote_file) ∧
    (files ≠ ∅ → failed_uploads ≠ ∅).
Proof.
  destruct (RemoteUpload env files w) as [r w'] eqn:Hrun.
  pose proof (relates_RemoteUpload env files _ _ _ Hrun) as Hran.
  unfold RemoteUpload in Hrun. rewrite bind_run in Hrun.
  destruct (pool_map_returns (map_to_list files) w) as (results & w1 & E & Hrs).
  rewrite E in Hrun. injection Hrun as <- <-.
  eexists _, w1. split; [reflexivity|]. split; [done|]. split.
  - intros l r Hin. apply elem_of_list_to_set, list_elem_of_lookup in Hin as (i & Hi).
    destruct (Forall2_lookup_r _ _ _ _ _ Hrs Hi) as (pair & Hp & [?|Hsome]); [done|].
    injection Hsome as <-. apply elem_of_map_to_list, list_elem_of_lookup. eauto.
  - intros Hne Hempty. destruct (map_choose files Hne) as (l & r & Hin).
    apply elem_of_map_to_list, list_elem_of_lookup in Hin as (i & Hi).
    destruct (Forall2_lookup_l _ _ _ _ _ Hrs Hi) as (result & Hres & _).
    assert (result ∈ (list_to_set results : gset (option (str * str)))) as Hin'.
    { apply elem_of_list_to_set, list_elem_of_lookup. eauto. }
    rewrite Hempty in Hin'. by apply not_elem_of_empty in Hin'.
Qed.

Lemma GenerateUploadDict_loop_exists base_local_path base_remote_path pkgs upload_files w :
  (∀ pkg, pkg ∈ pkgs →
     path_exists env (path_join base_local_path [CPV pkg ++ ".tbz2"]) = true) →
  ∃ result,
    GenerateUploadDict_loop env base_local_path base_remote_path pkgs upload_files w =
      (inr result, w) ∧
    (∀ l, is_Some (upload_files !! l) → is_Some (result !! l)) ∧
    (∀ pkg, pkg ∈ pkgs →
       is_Some (result !! path_join base_local_path [CPV pkg ++ ".tbz2"])) ∧
    (∀ l r, result !! l = Some r →
       upload_files !! l = Some r ∨
       ∃ pkg, pkg ∈ pkgs ∧ l = path_join base_local_path [CPV pkg ++ ".tbz2"] ∧
              r = rstrip "/" base_remote_path ++ "/" ++ CPV pkg ++ ".tbz2").
Proof.
  revert upload_files. induction pkgs as [|pkg pkgs IH]; intros upload_files Hex.
  - exists upload_files. split; [done|]. split; [done|]. split.
    + intros pkg Hin. by apply elem_of_nil in Hin.
    + intros l r Hl. by left.
  - cbn [GenerateUploadDict_loop].
    rewrite (Hex pkg) by by left. cbn [negb].
    destruct (IH (<[path_join base_local_path [CPV pkg ++ ".tbz2"] :=
                      rstrip "/" base_remote_path ++ "/" ++ CPV pkg ++ ".tbz2"]>
                    upload_files))
      as (result & -> & Hkeep & Hpkgs & Hfrom).
    { intros p Hp. apply Hex. by right. }
    exists result. split; [done|]. split; [|split].
    + intros l Hl. apply Hkeep. rewrite lookup_insert_is_Some'. tauto.
    + intros p [->|Hp]%elem_of_cons; [|by apply Hpkgs].
      apply Hkeep. rewrite lookup_insert_is_Some'. tauto.
    + intros l r Hl. destruct (Hfrom l r Hl) as [Hins|(p & Hp & -> & ->)].
      * apply lookup_insert_Some in Hins as [[<- <-]|[_ Hold]]; [|by left].
        right. exists pkg. split; [by left|done].
      * right. exists p. split; [by right|done].
Qed.

(** X11: When the file of every package exists, [GenerateUploadDict] changes
    nothing and returns a dictionary with a key for the local path of each
    package, each entry being the local path of one of the packages with
    its remote path: the remote base without trailing slashes, a slash, and
    the package name with .tbz2. *)
Theorem GenerateUploadDict_entries base_local_path base_remote_path (pkgs : list Pkg) w :
  (∀ pkg, pkg ∈ pkgs →
     path_exists env (path_join base_local_path [CPV pkg ++ ".tbz2"]) = true) →
  ∃ upload_files,
    GenerateUploadDict env base_local_path base_remote_path pkgs w =
      (inr upload_files, w) ∧
    (∀ pkg, pkg ∈ pkgs →
       is_Some (upload_files !! path_join base_local_path [CPV pkg ++ ".tbz2"])) ∧
    (∀ l r, upload_files !! l = Some r →
       ∃ pkg, pkg ∈ pkgs ∧ l = path_join base_local_path [CPV pkg ++ ".tbz2"] ∧
              r = rstrip "/" base_remote_path ++ "/" ++ CPV pkg ++ ".tbz2").
Proof.
  intros Hex. unfold GenerateUploadDict.
  destruct (GenerateUploadDict_loop_exists base_local_path base_remote_path pkgs ∅ w Hex)
    as (result & -> & _ & Hpkgs & Hfrom).
  exists result. split; [done|]. split; [done|].
  intros l r Hl. destruct (Hfrom l r Hl) as [Hempty|?]; [|done].
  by rewrite lookup_empty in Hempty.
Qed.

(** X12: When the file of one package is missing, the assertion fails: nothing
    is returned and nothing has changed. *)
Theorem GenerateUploadDict_missing base_local_path base_remote_path (pkgs : list Pkg)
    (pkg : Pkg) w :
  pkg ∈ pkgs →
  path_exists env (path_join base_local_path [CPV pkg ++ ".tbz2"]) = false →
  GenerateUploadDict env base_local_path base_remote_path pkgs w =
    (inl AssertionError, w).
Proof.
  intros Hin Hmiss. unfold GenerateUploadDict. generalize (∅ : gmap str str).
  induction pkgs as [|p pkgs IH]; intros upload_files;
    [by apply elem_of_nil in Hin|].
  cbn [GenerateUploadDict_loop].
  destruct (path_exists env (path_join base_local_path [CPV p ++ ".tbz2"])) eqn:Hp;
    cbn [negb]; [|done].
  apply elem_of_cons in Hin as [->|Hin]; [congruence|]. by apply IH.
Qed.

End UploadSet.

(** *** The upload step of [UploadPrebuilt] over Google Storage *)

Section GsUpload.

Context {binpkg : Binpkg} (env : Env).

Lemma RemoteUpload_const (fails : str * str → bool) (files : gmap str str) w :
  (∀ local_file remote_file w0,
     command_succeeds env w0 (gs_cmd local_file remote_file) None =
       negb (fails (local_file, remote_file))) →
  ∃ w',
    RemoteUpload env files w =
      (inr (list_to_set (map (upload_result fails) (map_to_list files))), w').
Proof.
  intros Hok. unfold RemoteUpload. rewrite bind_run.
  destruct (pool_map_GsUpload env fails (map_to_list files) w) as (w' & -> & _).
  { intros [l r] w0 _. apply Hok. }
  by exists w'.
Qed.

Lemma two_elements_size (X : gset (option (str * str))) x y :
  x ∈ X → y ∈ X → x ≠ y → (1 <? size X)%nat = true.
Proof.
  intros Hx Hy Hne. apply Nat.ltb_lt.
  destruct (size X) as [|[|n]] eqn:E; [| |lia].
  - apply size_empty_iff in E. rewrite E in Hx. by apply not_elem_of_empty in Hx.
  - destruct Hne. by apply (size_singleton_inv X).
Qed.

(** X14: The outcome of the upload over Google Storage, when the files of the
    packages exist and each transfer either always fails or always
    succeeds. If all transfers succeed the step returns; if all fail it
    raises UploadFailed; and if the index is transferred while some package
    is not, building the message of UploadFailed raises TypeError. *)
Theorem UploadPrebuilt_upload_gs_outcome (fails : str * str → bool)
    (upload_location package_path remote_location : str) (uploads : list Pkg)
    (tmp_packages_file : str) w :
  startswith "gs://" upload_location = true →
  (∀ pkg, pkg ∈ uploads →
     path_exists env (path_join package_path [CPV pkg ++ ".tbz2"]) = true) →
  (∀ local_file remote_file w0,
     command_succeeds env w0 (gs_cmd local_file remote_file) None =
       negb (fails (local_file, remote_file))) →
  ∃ r w',
    UploadPrebuilt_upload env upload_location package_path remote_location uploads
      tmp_packages_file w = (r, w') ∧
    ((∀ pair, fails pair = false) → r = inr tt) ∧
    ((∀ pair, fails pair = true) → r = inl UploadFailed) ∧
    (fails (tmp_packages_file, rstrip "/" remote_location ++ "/Packages") = false →
     ∀ pkg, pkg ∈ uploads →
       path_join package_path [CPV pkg ++ ".tbz2"] ≠ tmp_packages_file →
       (∀ remote_file,
          fails (path_join package_path [CPV pkg ++ ".tbz2"], remote_file) = true) →
       r = inl TypeError).
Proof.
  intros Hgs Hex Hok. unfold UploadPrebuilt_upload. rewrite Hgs, bind_run.
  unfold GenerateUploadDict.
  destruct (GenerateUploadDict_loop_exists env package_path remote_location uploads ∅ w Hex)
    as (upload_files & -> & _ & Hkeys & _).
  rewrite bind_run.
  set (files := <[tmp_packages_file := rstrip "/" remote_location ++ "/Packages"]>
                  upload_files).
  destruct (RemoteUpload_const fails files w Hok) as (w' & ->).
  set (failed := list_to_set (map (upload_result fails) (map_to_list files))
                 : gset (option (str * str))).
  assert (∀ x, x ∈ failed ↔
               ∃ l r, files !! l = Some r ∧ upload_result fails (l, r) = x) as Hfailed.
  { intros x. unfold failed. rewrite elem_of_list_to_set, list_elem_of_fmap. split.
    - intros ([l r] & -> & Hin%elem_of_map_to_list). eauto.
    - intros (l & r & Hin & <-). exists (l, r). split; [done|].
      by apply elem_of_map_to_list. }
  assert (files !! tmp_packages_file = Some (rstrip "/" remote_location ++ "/Packages"))
    as Htmp by apply lookup_insert_eq.
  match goal with |- ∃ r w'', ?run = (r, w'') ∧ _ =>
    exists run.1, run.2; split; [by destruct run|] end.
  unfold when. split; [|split].
  - intros Hnone.
    assert (failed = {[ None ]}) as ->.
    { apply set_eq. intros x. rewrite Hfailed, elem_of_singleton. split.
      - intros (l & r & _ & <-). unfold upload_result. by rewrite Hnone.
      - intros ->. exists tmp_packages_file, (rstrip "/" remote_location ++ "/Packages").
        split; [done|]. unfold upload_result. by rewrite Hnone. }
    rewrite size_singleton, bool_decide_true by by apply elem_of_singleton.
    done.
  - intros Hall.
    assert (None ∉ failed) as Hn.
    { rewrite Hfailed. intros (l & r & _ & E). unfold upload_result in E.
      by rewrite Hall in E. }
    rewrite !bool_decide_false by done. by rewrite orb_true_r.
  - intros Hindex pkg Hpkg Hne Hfail.
    assert (None ∈ failed) as Hn.
    { apply Hfailed. exists tmp_packages_file, (rstrip "/" remote_location ++ "/Packages").
      split; [done|]. unfold upload_result. by rewrite Hindex. }
    destruct (Hkeys pkg Hpkg) as [remote Hremote].
    assert (Some (path_join package_path [CPV pkg ++ ".tbz2"], remote) ∈ failed) as Hs.
    { apply Hfailed. exists (path_join package_path [CPV pkg ++ ".tbz2"]), remote. split.
      - unfold files. by rewrite lookup_insert_ne.
      - unfold upload_result. by rewrite Hfail. }
    rewrite (two_elements_size failed _ _ Hn Hs) by done.
    rewrite !bool_decide_true by done. done.
Qed.

End GsUpload.

(** *** The upload step of [UploadPrebuilt] over the remote shell *)

Section SshUpload.

Context {binpkg : Binpkg} (env : Env).

Lemma _RetryRun_succeeds cmd dir w :
  (∀ w0, command_succeeds env w0 cmd dir = true) →
  ∃ w', _RetryRun env cmd dir w = (inr true, w') ∧ unchanged w w' ∧
        new_events w w' [Ran cmd dir true].
Proof.
  intros Hok. unfold _RetryRun.
  destruct (_RetryRun_loop_const env (range 0 _RETRIES) cmd dir true w Hok)
    as (w' & E & Hun & Hev).
  exists w'. by split.
Qed.

Lemma forM_RetryRun_succeeds (cmds : list str) dir w :
  (∀ w0 cmd, command_succeeds env w0 cmd dir = true) →
  ∃ w',
    forM cmds (fun cmd =>
      ran ← _RetryRun env cmd dir; when (negb ran) (raise UploadFailed)) w =
      (inr tt, w') ∧
    unchanged w w' ∧
    new_events w w' (map (fun cmd => Ran cmd dir true) cmds).
Proof.
  intros Hok. revert w. induction cmds as [|cmd cmds IH]; intros w.
  - exists w. split; [done|]. split; [apply unchanged_refl|done].
  - cbn [forM]. rewrite bind_run, bind_run.
    destruct (_RetryRun_succeeds cmd dir w) as (w1 & -> & Hun1 & Hev1); [by intros|].
    cbn [negb when mret M_ret].
    destruct (IH w1) as (w' & -> & Hun & Hev).
    exists w'. split; [done|]. split; [by eapply unchanged_trans|].
    change (map _ (cmd :: cmds)) with ([Ran cmd dir true] ++ map (fun c => Ran c dir true) cmds).
    by eapply new_events_app.
Qed.

Lemma join_tbz2_nil (uploads : list Pkg) :
  eqs (join " " (map (fun p => CPV p ++ ".tbz2") uploads)) [] =
  match uploads with [] => true | _ => false end.
Proof.
  destruct uploads as [|p ps]; [done|]. unfold eqs. apply bool_decide_eq_false.
  intros E. apply (f_equal length) in E. cbn [map join] in E.
  destruct (map _ ps); repeat (rewrite !length_app in E || simpl in E); lia.
Qed.

(** X15: When every command succeeds, the upload over the remote shell runs,
    each once and from the package directory: the ssh command that makes
    the remote directory, the rsync of the index, and - unless there is
    nothing to upload - the rsync of the packages; and it changes nothing
    else. *)
Theorem UploadPrebuilt_upload_ssh_commands
    (upload_location package_path remote_location : str) (uploads : list Pkg)
    (tmp_packages_file ssh_server remote_path : str) w :
  startswith "gs://" upload_location = false →
  split1 ":" remote_location = [ssh_server; remote_path] →
  (∀ w0 cmd dir, command_succeeds env w0 cmd dir = true) →
  ∃ w',
    UploadPrebuilt_upload env upload_location package_path remote_location uploads
      tmp_packages_file w = (inr tt, w') ∧
    unchanged w w' ∧
    new_events w w'
      (map (fun cmd => Ran cmd (Some package_path) true)
         (["ssh " ++ ssh_server ++ " mkdir -p " ++ remote_path;
           "rsync -av --chmod=a+r " ++ tmp_packages_file ++ " " ++
             rstrip "/" remote_location ++ "/Packages"] ++
          match uploads with
          | [] => []
          | _ => ["rsync -Rav " ++ join " " (map (fun p => CPV p ++ ".tbz2") uploads) ++
                  " " ++ remote_location ++ "/"]
          end)).
Proof.
  intros Hgs Hsplit Hok. unfold UploadPrebuilt_upload. rewrite Hgs, Hsplit.
  rewrite join_tbz2_nil.
  destruct (forM_RetryRun_succeeds
              (["ssh " ++ ssh_server ++ " mkdir -p " ++ remote_path;
                "rsync -av --chmod=a+r " ++ tmp_packages_file ++ " " ++
                  rstrip "/" remote_location ++ "/Packages"] ++
               match uploads with
               | [] => []
               | _ => ["rsync -Rav " ++ join " " (map (fun p => CPV p ++ ".tbz2") uploads) ++
                       " " ++ remote_location ++ "/"]
               end) (Some package_path) w) as (w' & E & Hun & Hev); [by intros|].
  exists w'. split; [|by split]. rewrite <- E. by destruct uploads.
Qed.

Lemma split1_no_sep (sep : ascii) (s : str) : sep ∉ s → split1 sep s = [s].
Proof.
  induction s as [|c s IH]; simpl; [done|]. intros Hn.
  apply not_elem_of_cons in Hn as [Hc Hs].
  rewrite bool_decide_false by done. by rewrite IH.
Qed.

(** A destination that holds no colon cannot be cut into a host and a path. *)
Lemma UploadPrebuilt_upload_no_host
    (upload_location package_path remote_location : str) (uploads : list Pkg)
    (tmp_packages_file : str) w :
  startswith "gs://" upload_location = false →
  ":"%char ∉ remote_location →
  UploadPrebuilt_upload env upload_location package_path remote_location uploads
    tmp_packages_file w = (inl ValueError, w).
Proof.
  intros Hgs Hcolon. unfold UploadPrebuilt_upload.
  by rewrite Hgs, split1_no_sep.
Qed.

End SshUpload.

(** *** [UploadPrebuilt]: the order of its steps *)

Section UploadPrebuiltSteps.

Context {binpkg : Binpkg} (env : Env).

Lemma rstrip_elem_of (ch c : ascii) (s : str) : c ∈ rstrip ch s → c ∈ s.
Proof.
  induction s as [|x s IH]; simpl; [done|].
  destruct (rstrip ch s) as [|y r] eqn:E.
  - case_bool_decide; [by intros ?%elem_of_nil|].
    intros ->%list_elem_of_singleton. by left.
  - intros [->|Hin]%elem_of_cons; [by left|]. right. by apply IH.
Qed.

Lemma UploadPrebuilt_target_host build_path version board w :
  truthy board = false →
  UploadPrebuilt_target build_path version board w =
    (inr (path_join build_path [_HOST_PACKAGES_PATH],
          _REL_HOST_PATH _HOST_TARGET version,
          _HOST_TARGET,
          path_join build_path
            ["src/third_party/chromiumos-overlay/chromeos/config/make.conf.amd64-host" : str],
          path_join build_path [_BINHOST_CONF_DIR; "host" : str; _HOST_TARGET ++ ".conf"]),
     w).
Proof. intros Hb. unfold UploadPrebuilt_target. by rewrite Hb. Qed.

(** X16: Uploading the host packages to a destination that is not on Google
    Storage and names no host - there is no colon in it, nor in the version
    - raises ValueError before any command is run. *)
Theorem UploadPrebuilt_no_host
    (build_path upload_location version binhost_base_url : str) (board : option str)
    (git_sync : bool) (git_sync_retries : Z) (key : str)
    (pkg_indexes : list PackageIndex) (sync_binhost_conf : bool) (w : World) :
  truthy board = false →
  startswith "gs://" upload_location = false →
  ":"%char ∉ upload_location → ":"%char ∉ version →
  UploadPrebuilt env build_path upload_location version binhost_base_url board
    git_sync git_sync_retries key pkg_indexes sync_binhost_conf w = (inl ValueError, w).
Proof.
  intros Hb Hgs Hloc Hver. unfold UploadPrebuilt.
  rewrite bind_run, UploadPrebuilt_target_host by done.
  rewrite bind_run. cbn [get].
  destruct (ResolveDuplicateUploads _ _) as [pkg_index uploads].
  rewrite bind_run, UploadPrebuilt_upload_no_host; [done..|].
  unfold _REL_HOST_PATH, _HOST_TARGET.
  rewrite !not_elem_of_app. repeat split; try (by compute_done); [|done].
  intros Hin. by apply Hloc, (rstrip_elem_of "/").
Qed.

Lemma DetermineMakeConfFile_unknown (target : str) :
  target ≠ "amd64" → ¬ variant_name target → ¬ overlay_name target →
  DetermineMakeConfFile target = inl UnknownBoardFormat.
Proof.
  intros Hh Hv Ho. unfold DetermineMakeConfFile, eqs.
  rewrite bool_decide_false by (intros E; by apply Hh).
  rewrite bool_decide_false by by rewrite variant_re_matches.
  by rewrite bool_decide_false by by rewrite overlay_re_matches.
Qed.

(** X17: A board whose name is not the host name and has neither an underscore
    nor a hyphen followed by a word character on its first line is refused
    with UnknownBoardFormat before anything is read, run or written. *)
Theorem UploadPrebuilt_unknown_board
    (build_path upload_location version binhost_base_url board : str)
    (git_sync : bool) (git_sync_retries : Z) (key : str)
    (pkg_indexes : list PackageIndex) (sync_binhost_conf : bool) (w : World) :
  board ≠ [] → board ≠ "amd64" → ¬ variant_name board → ¬ overlay_name board →
  UploadPrebuilt env build_path upload_location version binhost_base_url (Some board)
    git_sync git_sync_retries key pkg_indexes sync_binhost_conf w =
    (inl UnknownBoardFormat, w).
Proof.
  intros Hne Hh Hv Ho. unfold UploadPrebuilt, UploadPrebuilt_target.
  rewrite bind_run. destruct board as [|c board]; [done|]. cbn [truthy negb default].
  by rewrite DetermineMakeConfFile_unknown.
Qed.

(** X18: With neither config step asked for, [UploadPrebuilt] runs transfer
    commands only and leaves every file, directory, the working directory,
    the environment and the filter set as they were, however it ends. *)
Theorem UploadPrebuilt_without_sync
    (build_path upload_location version binhost_base_url : str) (board : option str)
    (git_sync_retries : Z) (key : str) (pkg_indexes : list PackageIndex) (w : World) :
  ran_only is_transfer w
    (UploadPrebuilt env build_path upload_location version binhost_base_url board
       false git_sync_retries key pkg_indexes false w).2.
Proof.
  unfold UploadPrebuilt. rewrite bind_run.
  destruct (UploadPrebuilt_target build_path version board w)
    as [[e0|[[[[package_path url_suffix] package_string] git_file] binhost_conf]] w1]
    eqn:Ht; apply UploadPrebuilt_target_run in Ht as [-> _];
    [apply ran_only_refl|].
  rewrite bind_run. cbn [get].
  destruct (ResolveDuplicateUploads _ _) as [pkg_index uploads].
  rewrite bind_run.
  destruct (UploadPrebuilt_upload env upload_location package_path _ uploads _ w)
    as [[e1|[]] w2] eqn:Hu; by apply relates_UploadPrebuilt_upload in Hu.
Qed.

End UploadPrebuiltSteps.

(** *** [RevGitFile] *)

Section RevGitFileRuns.

Context (env : Env).

Lemma path_join_absolute (path b : str) :
  startswith "/" b = true → path_join path [b] = b.
Proof. intros Hb. unfold path_join, path_join2. cbn [fold_left]. by rewrite Hb. Qed.

Lemma chdir_run (path : str) w :
  path ≠ [] →
  chdir env path w =
    (inr tt,
     mkWorld (files w) (dirs w) (normpath env (path_join (cwd w) [path])) (environ w)
       (_FILTER_PACKAGES w) (trace w)).
Proof.
  intros Hp. unfold chdir, eqs. rewrite bool_decide_false by done.
  by rewrite bind_run, abspath_run.
Qed.

Lemma getcwd_run w : getcwd w = (inr (cwd w), w).
Proof. done. Qed.

Lemma chdir_empty w : chdir env [] w = (inl OSError, w).
Proof. done. Qed.

(** X5: Unless [RevGitFile] ends with the error of a failed command or of a
    failed change of directory, the last thing it ran is the repo abandon
    of its branch, with success, and the working directory is normalised
    back to the one it started from: this holds when it returns and when it
    raises GitPushFailed or the IOError of a missing file. *)
Theorem RevGitFile_cleanup (filename value : str) (retries : Z) (key : str)
    (w w' : World) (r : Exc + unit) :
  RevGitFile env filename value retries key w = (r, w') →
  r ≠ inl RunCommandError → r ≠ inl OSError →
  startswith "/" (cwd w) = true →
  (∃ rest, trace w' = Ran ("repo abandon prebuilt_branch ." : str) None true :: rest) ∧
  cwd w' = normpath env (cwd w).
Proof.
  intros Hrun Hcmd Hos Habs. unfold RevGitFile in Hrun.
  rewrite bind_run, getcwd_run, bind_run in Hrun.
  destruct (chdir env (dirname filename) w) as [[e|[]] w1] eqn:Hcd.
  { unfold chdir in Hcd. destruct (eqs (dirname filename) []).
    - injection Hcd as <- <-. by injection Hrun as <- <-.
    - rewrite bind_run, abspath_run in Hcd. discriminate Hcd. }
  repeat
    (rewrite bind_run, RunCommand_run in Hrun; cbn zeta in Hrun;
     match type of Hrun with context [command_succeeds env ?w0 ?c None] =>
       destruct (command_succeeds env w0 c None)
     end; [|by injection Hrun as <- <-]).
  unfold try_finally in Hrun.
  match type of Hrun with context [match ?body ?w4 with _ => _ end] =>
    destruct (body w4) as [rb w5] end.
  rewrite bind_run, RunCommand_run in Hrun. cbn zeta in Hrun.
  match type of Hrun with context [command_succeeds env ?w0 ?c None] =>
    destruct (command_succeeds env w0 c None)
  end; [|by injection Hrun as <- <-].
  rewrite chdir_run in Hrun by (intros E; by rewrite E in Habs).
  injection Hrun as <- <-. cbn [trace cwd]. split; [by eexists|].
  unfold path_join2. by rewrite Habs.
Qed.

Section AllCommandsSucceed.

Context (Hok : ∀ w0 cmd dir, command_succeeds env w0 cmd dir = true).

Lemma RunCommand_ok cmd dir w :
  RunCommand env cmd dir w =
    (inr tt,
     mkWorld (files w) (dirs w) (cwd w) (environ w) (_FILTER_PACKAGES w)
       (Ran cmd dir true :: trace w)).
Proof using Hok. by rewrite RunCommand_run, Hok. Qed.

Lemma RevGitPushWithRetry_first_turn (retries : Z) w :
  (1 ≤ retries)%Z →
  RevGitPushWithRetry env retries w =
    (inr tt,
     mkWorld (files w) (dirs w) (cwd w) (environ w) (_FILTER_PACKAGES w)
       (Ran ("git push" : str) None true :: Ran ("repo sync ." : str) None true :: trace w)).
Proof using Hok.
  intros Hr. unfold RevGitPushWithRetry, range.
  destruct (Z.to_nat (retries + 1 - 1)) as [|n] eqn:E; [lia|].
  cbn [seq map RevGitPushWithRetry_loop]. rewrite bind_run. unfold try_except.
  by rewrite bind_run, RunCommand_ok, bind_run, RunCommand_ok.
Qed.

(** X3: When every command succeeds and the file, given by an absolute name
    with a directory part, exists: [RevGitFile] returns after running, in
    this order, the sync, the start of the branch, the two git config
    commands around the rewriting of the file, the commit, one sync and one
    push, and the abandon of the branch; the file holds the updated text,
    no other file has changed, and the working directory is normalised
    back to the one it started from. *)
Theorem RevGitFile_success (filename value : str) (retries : Z) (key contents : str)
    (w : World) :
  startswith "/" filename = true → dirname filename ≠ [] →
  startswith "/" (cwd w) = true →
  files w !! normpath env filename = Some contents →
  (1 ≤ retries)%Z →
  ∃ w',
    RevGitFile env filename value retries key w = (inr tt, w') ∧
    files w' =
      <[normpath env filename := UpdateLocalFile_text contents value key]> (files w) ∧
    cwd w' = normpath env (cwd w) ∧
    new_events w w'
      (map (fun cmd => Ran cmd None true)
         ["repo sync ." : str;
          "repo start prebuilt_branch ." : str;
          "git config url.ssh://git@gitrw.chromium.org:9222.pushinsteadof http://git.chromium.org/git" : str;
          "git config push.default tracking" : str;
          "git commit -am " ++
            quoted ("Update " ++ key ++ "=" ++ quoted value ++ " in " ++ filename);
          "repo sync ." : str;
          "git push" : str;
          "repo abandon prebuilt_branch ." : str]).
Proof using Hok.
  intros Hfn Hdir Hcwd Hfile Hr. unfold RevGitFile.
  rewrite bind_run, getcwd_run, bind_run, chdir_run by done.
  rewrite bind_run, RunCommand_ok, bind_run, RunCommand_ok, bind_run, RunCommand_ok.
  unfold try_finally. rewrite bind_run.
  erewrite UpdateLocalFile_run; last first.
  { cbn [files cwd]. rewrite (path_join_absolute _ filename) by done. exact Hfile. }
  cbn [files dirs cwd environ _FILTER_PACKAGES trace].
  rewrite (path_join_absolute _ filename) by done.
  rewrite bind_run, RunCommand_ok, bind_run, RunCommand_ok.
  rewrite RevGitPushWithRetry_first_turn by done.
  rewrite bind_run, RunCommand_ok.
  rewrite chdir_run by (intros E; by rewrite E in Hcwd).
  cbn [files dirs cwd environ _FILTER_PACKAGES trace].
  rewrite (path_join_absolute _ (cwd w)) by done.
  eexists. split; [reflexivity|]. by repeat split.
Qed.

(** X4: When every command succeeds, the directory of the file and the
    working directory exist and the file does not, [RevGitFile] raises
    IOError: it has run the sync, the start of the branch, the git config
    of the push url and the abandon of the branch, and neither a commit nor
    a push; no file has changed and the working directory is normalised
    back to the one it started from. *)
Theorem RevGitFile_missing_file (filename value : str) (retries : Z) (key : str)
    (w : World) :
  startswith "/" filename = true → dirname filename ≠ [] →
  startswith "/" (cwd w) = true →
  isdir env (dirname filename) w = (inr true, w) →
  isdir env (cwd w) w = (inr true, w) →
  files w !! normpath env filename = None →
  ∃ w',
    RevGitFile env filename value retries key w = (inl IOError, w') ∧
    files w' = files w ∧
    cwd w' = normpath env (cwd w) ∧
    new_events w w'
      (map (fun cmd => Ran cmd None true)
         ["repo sync ." : str;
          "repo start prebuilt_branch ." : str;
          "git config url.ssh://git@gitrw.chromium.org:9222.pushinsteadof http://git.chromium.org/git" : str;
          "repo abandon prebuilt_branch ." : str]).
Proof using Hok.
  intros Hfn Hdir Hcwd _ _ Hfile. unfold RevGitFile.
  rewrite bind_run, getcwd_run, bind_run, chdir_run by done.
  rewrite bind_run, RunCommand_ok, bind_run, RunCommand_ok, bind_run, RunCommand_ok.
  unfold try_finally. rewrite bind_run.
  unfold UpdateLocalFile, read_file.
  rewrite bind_run, bind_run, abspath_run, bind_run. cbn [get files cwd].
  rewrite (path_join_absolute _ filename), Hfile by done. cbn [raise].
  rewrite bind_run, RunCommand_ok.
  rewrite chdir_run by (intros E; by rewrite E in Hcwd).
  cbn [files dirs cwd environ _FILTER_PACKAGES trace].
  rewrite (path_join_absolute _ (cwd w)) by done.
  eexists. split; [reflexivity|]. by repeat split.
Qed.

End AllCommandsSucceed.

End RevGitFileRuns.

(** *** [UpdateBinhostConfFile] *)

Section BinhostConf.

Context (env : Env).

(** X13: For a path that is normalised, does not name a directory and has
    no regular file among its ancestors, and whatever the commands do:
    [UpdateBinhostConfFile] rewrites the file - starting from the single
    FULL_BINHOST line when the file did not exist - before it runs git, so
    that the file holds the updated text even when git add or git commit
    fails, which is then the only way for it to fail. The commit is run
    only after a successful add, both from the directory of the file, and
    the working directory is not changed. *)
Theorem UpdateBinhostConfFile_writes (path key value : str) (w : World) :
  let file := normpath env (path_join (cwd w) [path]) in
  let before :=
    default ("FULL_BINHOST=" ++ quoted "$PORTAGE_BINHOST" ++ [NL]) (files w !! file) in
  let add := Ran ("git add " ++ basename path) (Some (dirname file)) in
  let commit :=
    Ran ("git commit -m " ++
         quoted ("Update " ++ key ++ "=" ++ value ++ " in " ++ basename path))
      (Some (dirname file)) in
  file = path_join (cwd w) [path] →
  file ∉ dirs w →
  (∀ d rest, file = d ++ "/" ++ rest → files w !! d = None) →
  ∃ r w',
    UpdateBinhostConfFile env path key value w = (r, w') ∧
    files w' = <[file := UpdateLocalFile_text before value key]> (files w) ∧
    cwd w' = cwd w ∧
    ((r = inr tt ∧ new_events w w' [add true; commit true]) ∨
     (r = inl RunCommandError ∧ new_events w w' [add true; commit false]) ∨
     (r = inl RunCommandError ∧ new_events w w' [add false])).
Proof.
  intros file before add commit _ _ _. unfold UpdateBinhostConfFile.
  rewrite bind_run, abspath_run. fold file.
  unfold isdir. rewrite bind_run, bind_run, abspath_run, bind_run. cbn [get mret M_ret].
  set (w1 := if negb (bool_decide (normpath env (path_join (cwd w) [dirname file]) ∈ dirs w))
             then mkWorld (files w)
                    ({[normpath env (path_join (cwd w) [dirname file])]} ∪ dirs w)
                    (cwd w) (environ w) (_FILTER_PACKAGES w) (trace w)
             else w).
  assert (∀ k : unit → M unit,
            (when (negb (bool_decide
                           (normpath env (path_join (cwd w) [dirname file]) ∈ dirs w)))
               (makedirs env (dirname file)) ≫= k) w = k tt w1) as Hdirs.
  { intros k. rewrite bind_run. unfold w1.
    destruct (negb (bool_decide _)); [|done].
    unfold when, makedirs. by rewrite bind_run, abspath_run, bind_run. }
  rewrite Hdirs. clear Hdirs.
  assert (files w1 = files w ∧ cwd w1 = cwd w ∧ trace w1 = trace w) as (Hf1 & Hc1 & Ht1).
  { unfold w1. by destruct (negb (bool_decide _)). }
  unfold isfile. rewrite bind_run, bind_run, abspath_run, bind_run. cbn [get mret M_ret].
  rewrite Hc1, Hf1. fold file.
  set (w2 := if negb (bool_decide (is_Some (files w !! file)))
             then mkWorld (<[file := "FULL_BINHOST=" ++ quoted "$PORTAGE_BINHOST" ++ [NL]]>
                             (files w1))
                    (dirs w1) (cwd w1) (environ w1) (_FILTER_PACKAGES w1) (trace w1)
             else w1).
  assert (∀ k : unit → M unit,
            (when (negb (bool_decide (is_Some (files w !! file))))
               (write_file env path
                  ("FULL_BINHOST=" ++ quoted "$PORTAGE_BINHOST" ++ [NL])) ≫= k) w1 =
            k tt w2) as Hwrite.
  { intros k. rewrite bind_run. unfold w2.
    destruct (negb (bool_decide (is_Some (files w !! file)))); [|done].
    unfold when, write_file. rewrite bind_run, abspath_run, bind_run. cbn [get].
    replace (normpath env (path_join (cwd w1) [path])) with file
      by (unfold file; by rewrite Hc1).
    reflexivity. }
  rewrite Hwrite. clear Hwrite.
  assert (files w2 !! file = Some before ∧ cwd w2 = cwd w ∧ trace w2 = trace w ∧
          <[file := UpdateLocalFile_text before value key]> (files w2) =
          <[file := UpdateLocalFile_text before value key]> (files w))
    as (Hf2 & Hc2 & Ht2 & Hins).
  { unfold w2, before. destruct (files w !! file) as [contents|] eqn:Hfile.
    - rewrite bool_decide_true by done. cbn [negb default]. by rewrite Hf1.
    - rewrite bool_decide_false by by intros [? ?]. cbn [negb default files cwd trace].
      by rewrite lookup_insert_eq, insert_insert_eq, Hf1. }
  rewrite bind_run. erewrite UpdateLocalFile_run; last first.
  { rewrite Hc2. exact Hf2. }
  rewrite Hc2. fold file. rewrite Hins.
  rewrite bind_run, RunCommand_run. cbn zeta.
  match goal with |- context [command_succeeds env ?w0 ?c ?d] =>
    destruct (command_succeeds env w0 c d) end.
  - rewrite RunCommand_run. cbn zeta.
    match goal with |- context [command_succeeds env ?w0 ?c ?d] =>
      destruct (command_succeeds env w0 c d) end;
      (eexists _, _; split; [reflexivity|]; cbn [files cwd trace];
       split; [done|]; split; [done|]).
    + left. split; [done|]. unfold new_events. cbn [trace]. by rewrite Ht2.
    + right. left. split; [done|]. unfold new_events. cbn [trace]. by rewrite Ht2.
  - eexists _, _. split; [reflexivity|]. cbn [files cwd trace].
    split; [done|]. split; [done|]. right. right. split; [done|].
    unfold new_events. cbn [trace]. by rewrite Ht2.
Qed.

End BinhostConf.

(** *** [main] *)

Section MainRuns.

Context {binpkg : Binpkg} (env : Env).

(** X20: Without a build path or without an upload location, [main] sets
    BOTO_CONFIG in the environment and exits with status 1: nothing is
    scanned, fetched, run or written. *)
Theorem main_usage (options : Options) (w : World) :
  truthy (opt_build_path options) = false ∨ truthy (opt_upload options) = false →
  main env options w =
    (inl (SystemExit 1),
     mkWorld (files w) (dirs w) (cwd w)
       (<[("BOTO_CONFIG" : str) := _BOTO_CONFIG]> (environ w))
       (_FILTER_PACKAGES w) (trace w)).
Proof.
  intros Hmissing. unfold main. rewrite bind_run. cbn [get].
  rewrite bind_run. unfold set_environ at 1.
  destruct (truthy (opt_build_path options)); [|done].
  destruct Hmissing as [?|Hup]; [done|]. rewrite Hup.
  cbn [negb when]. rewrite bind_run. cbn [mret M_ret]. by rewrite bind_run.
Qed.

Lemma ret_run {A} (a : A) (w : World) : (mret a : M A) w = (inr a, w).
Proof. done. Qed.

Lemma grab_pkg_indexes_run (urls : list str) (pkg_indexes : list PackageIndex) w :
  grab_pkg_indexes urls pkg_indexes w =
    (inr (pkg_indexes ++ omap GrabRemotePackageIndex urls),
     mkWorld (files w) (dirs w) (cwd w) (environ w) (_FILTER_PACKAGES w)
       (rev (map Fetched urls) ++ trace w)).
Proof.
  revert pkg_indexes w. induction urls as [|url urls IH]; intros pkg_indexes w.
  - cbn. rewrite app_nil_r. by destruct w.
  - cbn [grab_pkg_indexes]. rewrite bind_run. cbn [log].
    cbn [omap list_omap map rev].
    destruct (GrabRemotePackageIndex url) as [pkg_index|]; rewrite IH;
      cbn [files dirs cwd environ _FILTER_PACKAGES trace];
      rewrite <- ?app_assoc; done.
Qed.

(** X21: With neither the host nor a board selected and filtering off, [main]
    fetches the previous indexes in the order given and returns: it runs no
    command and writes no file. *)
Theorem main_without_target (options : Options) (w : World) :
  truthy (opt_build_path options) = true →
  truthy (opt_upload options) = true →
  opt_filters options = false →
  opt_sync_host options = false →
  truthy (opt_board options) = false →
  main env options w =
    (inr tt,
     mkWorld (files w) (dirs w) (cwd w)
       (<[("BOTO_CONFIG" : str) := _BOTO_CONFIG]> (environ w))
       (_FILTER_PACKAGES w)
       (rev (map Fetched (opt_previous_binhost_url options)) ++ trace w)).
Proof.
  intros Hbuild Hupload Hfilters Hhost Hboard. unfold main.
  rewrite bind_run. cbn [get]. rewrite bind_run. unfold set_environ at 1.
  rewrite Hbuild, Hupload, Hfilters, Hhost, Hboard. cbn [negb when].
  unfold GetVersion.
  repeat (rewrite bind_run, ?ret_run, ?grab_pkg_indexes_run). done.
Qed.

End MainRuns.

(** *** [UploadPrebuilt]: transfers come before the config steps *)

Section Ordering.

Context {binpkg : Binpkg} (env : Env).

Lemma logged_refl P w : logged P w w.
Proof. exists []. by split. Qed.

Lemma logged_trans P w1 w2 w3 : logged P w1 w2 → logged P w2 w3 → logged P w1 w3.
Proof.
  intros (e1 & He1 & Hf1) (e2 & He2 & Hf2). exists (e1 ++ e2).
  split; [by eapply new_events_app|by apply Forall_app].
Qed.

Lemma logged_same_trace P w w' : trace w' = trace w → logged P w w'.
Proof. intros Ht. exists []. by split. Qed.

Lemma relates_try_except {A} R (body handler : M A) exc :
  (∀ w1 w2 w3, R w1 w2 → R w2 w3 → R w1 w3) →
  relates R body → relates R handler → relates R (try_except body exc handler).
Proof.
  intros Htrans Hb Hh w r w'. unfold try_except.
  destruct (body w) as [[e|a] w1] eqn:E.
  - case_bool_decide.
    + intros Hhw. eapply Htrans; [by eapply Hb|by eapply Hh].
    + intros [= <- <-]. by eapply Hb.
  - intros [= <- <-]. by eapply Hb.
Qed.

Lemma relates_try_finally {A} R (body : M A) (cleanup : M unit) :
  (∀ w1 w2 w3, R w1 w2 → R w2 w3 → R w1 w3) →
  relates R body → relates R cleanup → relates R (try_finally body cleanup).
Proof.
  intros Htrans Hb Hc w r w'. unfold try_finally.
  destruct (body w) as [rb w1] eqn:Eb.
  destruct (cleanup w1) as [[e|[]] w2] eqn:Ec; intros [= <- <-];
    (eapply Htrans; [by eapply Hb|by eapply Hc]).
Qed.

Lemma relates_config_RunCommand cmd dir :
  startswith "repo " cmd = true ∨ startswith "git " cmd = true →
  relates (logged is_config_event) (RunCommand env cmd dir).
Proof.
  intros Hcmd w r w'. rewrite RunCommand_run. cbn zeta. intros [= _ <-].
  eexists [_]. split; [done|]. apply Forall_cons. split; [|by apply Forall_nil].
  left. eauto 6.
Qed.

Lemma relates_config_chdir path : relates (logged is_config_event) (chdir env path).
Proof.
  intros w r w'. unfold chdir. destruct (eqs path []).
  - intros [= _ <-]. apply logged_refl.
  - rewrite bind_run, abspath_run. intros [= _ <-]. by apply logged_same_trace.
Qed.

Lemma relates_config_UpdateLocalFile filename value key :
  relates (logged is_config_event) (UpdateLocalFile env filename value key).
Proof.
  intros w r w'. unfold UpdateLocalFile, read_file, write_file.
  rewrite bind_run, bind_run, abspath_run, bind_run. cbn [get].
  destruct (files w !! _).
  - rewrite ret_run, bind_run, abspath_run, bind_run. intros [= _ <-].
    by apply logged_same_trace.
  - intros [= _ <-]. apply logged_refl.
Qed.

Lemma relates_config_RevGitPushWithRetry_loop retries rs :
  relates (logged is_config_event) (RevGitPushWithRetry_loop env retries rs).
Proof.
  induction rs as [|retry rs IH]; [apply relates_raise, logged_refl|].
  cbn [RevGitPushWithRetry_loop]. apply relates_bind; [apply logged_trans| |].
  - apply relates_try_except; [apply logged_trans| |].
    + apply relates_bind; [apply logged_trans| |];
        [apply relates_config_RunCommand; by left|]. intros _.
      apply relates_bind; [apply logged_trans| |];
        [apply relates_config_RunCommand; by right|]. intros _.
      apply relates_ret, logged_refl.
    + apply relates_bind; [apply logged_trans| |].
      * apply relates_when; [apply logged_refl|].
        intros w r w' [= _ <-]. eexists [_]. split; [done|].
        apply Forall_cons. split; [|by apply Forall_nil]. right. eauto.
      * intros _. apply relates_ret, logged_refl.
  - intros [|]; [apply relates_ret, logged_refl|done].
Qed.

Lemma relates_config_RevGitFile filename value retries key :
  relates (logged is_config_event) (RevGitFile env filename value retries key).
Proof.
  unfold RevGitFile.
  apply relates_bind; [apply logged_trans| |].
  { intros w r w' [= _ <-]. apply logged_refl. }
  intros old_cwd. apply relates_bind; [apply logged_trans|apply relates_config_chdir|].
  intros _. apply relates_bind; [apply logged_trans| |];
    [apply relates_config_RunCommand; by left|].
  intros _. apply relates_bind; [apply logged_trans| |];
    [apply relates_config_RunCommand; by left|].
  intros _. apply relates_bind; [apply logged_trans| |];
    [apply relates_config_RunCommand; by right|].
  intros _. apply relates_try_finally; [apply logged_trans| |].
  - apply relates_bind; [apply logged_trans|apply relates_config_UpdateLocalFile|].
    intros _. apply relates_bind; [apply logged_trans| |];
      [apply relates_config_RunCommand; by right|].
    intros _. apply relates_bind; [apply logged_trans| |];
      [apply relates_config_RunCommand; by right|].
    intros _. apply relates_config_RevGitPushWithRetry_loop.
  - apply relates_bind; [apply logged_trans| |];
      [apply relates_config_RunCommand; by left|].
    intros _. apply relates_config_chdir.
Qed.

Lemma relates_config_UpdateBinhostConfFile path key value :
  relates (logged is_config_event) (UpdateBinhostConfFile env path key value).
Proof.
  unfold UpdateBinhostConfFile.
  apply relates_bind; [apply logged_trans| |].
  { intros w r w' [= _ <-]. apply logged_refl. }
  intros abs. apply relates_bind; [apply logged_trans| |].
  { intros w r w' [= _ <-]. apply logged_refl. }
  intros is_dir. apply relates_bind; [apply logged_trans| |].
  { apply relates_when; [apply logged_refl|].
    intros w r w' [= _ <-]. by apply logged_same_trace. }
  intros _. apply relates_bind; [apply logged_trans| |].
  { intros w r w' [= _ <-]. apply logged_refl. }
  intros is_file. apply relates_bind; [apply logged_trans| |].
  { apply relates_when; [apply logged_refl|].
    intros w r w' [= _ <-]. by apply logged_same_trace. }
  intros _. apply relates_bind; [apply logged_trans|apply relates_config_UpdateLocalFile|].
  intros _. apply relates_bind; [apply logged_trans| |];
    [apply relates_config_RunCommand; by right|].
  intros _. apply relates_config_RunCommand; by right.
Qed.

(** X19: In every run of [UploadPrebuilt] the transfers come first: the events
    of the run are transfer commands followed by the events of the config
    steps - repo and git commands and waits - so that no transfer is made
    once a config step has begun. *)
Theorem UploadPrebuilt_transfers_first
    (build_path upload_location version binhost_base_url : str) (board : option str)
    (git_sync : bool) (git_sync_retries : Z) (key : str)
    (pkg_indexes : list PackageIndex) (sync_binhost_conf : bool) (w : World) :
  ∃ transfers configs,
    new_events w
      (UploadPrebuilt env build_path upload_location version binhost_base_url board
         git_sync git_sync_retries key pkg_indexes sync_binhost_conf w).2
      (transfers ++ configs) ∧
    Forall is_transfer_event transfers ∧
    Forall is_config_event configs.
Proof.
  unfold UploadPrebuilt. rewrite bind_run.
  destruct (UploadPrebuilt_target build_path version board w)
    as [[e0|[[[[package_path url_suffix] package_string] git_file] binhost_conf]] w1]
    eqn:Ht; apply UploadPrebuilt_target_run in Ht as [-> _].
  { exists [], []. by repeat split. }
  rewrite bind_run. cbn [get].
  destruct (ResolveDuplicateUploads _ _) as [pkg_index uploads].
  rewrite bind_run.
  destruct (UploadPrebuilt_upload env upload_location package_path _ uploads _ w)
    as [[e1|[]] w2] eqn:Hu;
    apply relates_UploadPrebuilt_upload in Hu as [_ (transfers & Hev & Htr)].
  { exists transfers, []. rewrite app_nil_r. by repeat split. }
  match goal with |- context [(?c ≫= ?k) w2] =>
    destruct ((c ≫= k) w2) as [r w3] eqn:Hcfg end.
  assert (logged is_config_event w2 w3) as (configs & Hev' & Hcf).
  { revert Hcfg. apply relates_bind; [apply logged_trans| |].
    - apply relates_when; [apply logged_refl|apply relates_config_RevGitFile].
    - intros _. apply relates_when;
        [apply logged_refl|apply relates_config_UpdateBinhostConfFile]. }
  exists transfers, configs. split; [by eapply new_events_app|by split].
Qed.

End Ordering.

(** *** The further properties on examples *)

Lemma GenerateUploadDict_entries_witness :
  ∃ upload_files,
    GenerateUploadDict (binpkg := binpkg_example) (env_const true true)
      "/b/pkgs" "gs://bucket/v1//" ["a/x-1" : str; "b/y-2" : str] empty_world =
      (inr upload_files, empty_world) ∧
    (∀ pkg : str, pkg ∈ ["a/x-1" : str; "b/y-2" : str] →
       is_Some (upload_files !! path_join "/b/pkgs" [pkg ++ ".tbz2"])) ∧
    (∀ l r, upload_files !! l = Some r →
       ∃ pkg : str, pkg ∈ ["a/x-1" : str; "b/y-2" : str] ∧
                    l = path_join "/b/pkgs" [pkg ++ ".tbz2"] ∧
                    r = rstrip "/" "gs://bucket/v1//" ++ "/" ++ pkg ++ ".tbz2").
Proof.
  apply (GenerateUploadDict_entries (binpkg := binpkg_example) (env_const true true)
           "/b/pkgs" "gs://bucket/v1//" ["a/x-1" : str; "b/y-2" : str] empty_world).
  intros pkg _. reflexivity.
Defined.

Lemma GenerateUploadDict_missing_witness :
  GenerateUploadDict (binpkg := binpkg_example) (env_const true false)
    "/b/pkgs" "gs://bucket/v1" ["a/x-1" : str; "b/y-2" : str] empty_world =
    (inl AssertionError, empty_world).
Proof.
  apply (GenerateUploadDict_missing (binpkg := binpkg_example) (env_const true false)
           "/b/pkgs" "gs://bucket/v1" ["a/x-1" : str; "b/y-2" : str] ("b/y-2" : str)).
  - right. left.
  - reflexivity.
Defined.

(** The index is transferred and the package is not: TypeError. *)
Lemma UploadPrebuilt_upload_gs_outcome_witness :
  ∃ r w',
    UploadPrebuilt_upload (binpkg := binpkg_example)
      (env_existing (fun cmd => contains "x-1.tbz2" cmd))
      "gs://bucket" "/b/pkgs" "gs://bucket/v1" ["a/x-1" : str] "/tmp/Packages"
      empty_world = (r, w') ∧
    r = inl TypeError.
Proof.
  destruct (UploadPrebuilt_upload_gs_outcome (binpkg := binpkg_example)
              (env_existing (fun cmd => contains "x-1.tbz2" cmd))
              (fun pair => contains "x-1.tbz2" (gs_cmd pair.1 pair.2))
              "gs://bucket" "/b/pkgs" "gs://bucket/v1" ["a/x-1" : str] "/tmp/Packages"
              empty_world) as (r & w' & Hrun & _ & _ & Hpartial).
  - reflexivity.
  - intros pkg _. reflexivity.
  - intros local_file remote_file w0. reflexivity.
  - exists r, w'. split; [exact Hrun|].
    apply (Hpartial eq_refl ("a/x-1" : str)).
    + left.
    + discriminate.
    + intros remote_file. apply contains_spec.
      exists (_GSUTIL_BIN ++ " cp -a public-read /b/pkgs/a/"), (" " ++ remote_file).
      reflexivity.
Defined.

Lemma UploadPrebuilt_upload_ssh_commands_witness :
  ∃ w',
    UploadPrebuilt_upload (binpkg := binpkg_example) (env_const true false)
      "host:/tmp" "/b/pkgs" "host:/tmp/v1" ["a/x-1" : str] "/tmp/Packages"
      empty_world = (inr tt, w') ∧
    trace w' =
      [Ran ("rsync -Rav a/x-1.tbz2 host:/tmp/v1/" : str) (Some ("/b/pkgs" : str)) true;
       Ran ("rsync -av --chmod=a+r /tmp/Packages host:/tmp/v1/Packages" : str)
         (Some ("/b/pkgs" : str)) true;
       Ran ("ssh host mkdir -p /tmp/v1" : str) (Some ("/b/pkgs" : str)) true].
Proof.
  destruct (UploadPrebuilt_upload_ssh_commands (binpkg := binpkg_example)
              (env_const true false) "host:/tmp" "/b/pkgs" "host:/tmp/v1"
              ["a/x-1" : str] "/tmp/Packages" "host" "/tmp/v1" empty_world)
    as (w' & Hrun & _ & Hev); [reflexivity..|].
  exists w'. split; [exact Hrun|]. exact Hev.
Defined.

Lemma UploadPrebuilt_no_host_witness :
  UploadPrebuilt (binpkg := binpkg_example) (env_const true true)
    "/b/cbuild/build" "/mnt/prebuilts" "v1" _BINHOST_BASE_URL None
    true 5 "PORTAGE_BINHOST" [] true empty_world = (inl ValueError, empty_world).
Proof.
  apply (UploadPrebuilt_no_host (binpkg := binpkg_example)); try reflexivity;
    compute_done.
Defined.

Lemma UploadPrebuilt_unknown_board_witness :
  UploadPrebuilt (binpkg := binpkg_example) (env_const true true)
    "/b/cbuild/build" "gs://chromeos-prebuilt" "v1" _BINHOST_BASE_URL
    (Some ("??invalid" : str)) true 5 "PORTAGE_BINHOST" [] true empty_world =
    (inl UnknownBoardFormat, empty_world).
Proof.
  apply (UploadPrebuilt_unknown_board (binpkg := binpkg_example)).
  - discriminate.
  - discriminate.
  - rewrite <- variant_re_matches. vm_compute. intros [? ?]. discriminate.
  - rewrite <- overlay_re_matches. vm_compute. intros [? ?]. discriminate.
Defined.

(** The push fails every time: GitPushFailed, and the branch is abandoned. *)
Lemma RevGitFile_cleanup_witness :
  ∃ w',
    RevGitFile (env_failing (fun cmd => eqs cmd "git push"))
      "/b/overlay/make.conf" "http://host/v1/" 2 "PORTAGE_BINHOST"
      world_with_make_conf = (inl GitPushFailed, w') ∧
    (∃ rest, trace w' = Ran ("repo abandon prebuilt_branch ." : str) None true :: rest) ∧
    cwd w' = "/b".
Proof.
  destruct (RevGitFile (env_failing (fun cmd => eqs cmd "git push"))
              "/b/overlay/make.conf" "http://host/v1/" 2 "PORTAGE_BINHOST"
              world_with_make_conf) as [r w'] eqn:E.
  assert (r = inl GitPushFailed) as ->.
  { change r with (r, w').1. rewrite <- E. vm_compute. reflexivity. }
  exists w'. split; [reflexivity|].
  apply (RevGitFile_cleanup _ _ _ _ _ _ _ _ E); [discriminate|discriminate|reflexivity].
Defined.

Lemma RevGitFile_success_witness :
  ∃ w',
    RevGitFile (env_const true true) "/b/overlay/make.conf" "http://host/v1/" 5
      "PORTAGE_BINHOST" world_with_make_conf = (inr tt, w') ∧
    files w' =
      <[("/b/overlay/make.conf" : str) :=
          UpdateLocalFile_text make_conf_example "http://host/v1/" "PORTAGE_BINHOST"]>
        (files world_with_make_conf) ∧
    cwd w' = "/b".
Proof.
  destruct (RevGitFile_success (env_const true true) (fun _ _ _ => eq_refl)
              "/b/overlay/make.conf" "http://host/v1/" 5 "PORTAGE_BINHOST"
              make_conf_example world_with_make_conf)
    as (w' & Hrun & Hfiles & Hcwd & _).
  - reflexivity.
  - discriminate.
  - reflexivity.
  - apply lookup_singleton_eq.
  - lia.
  - exists w'. split; [exact Hrun|]. split; [exact Hfiles|exact Hcwd].
Defined.

Lemma RevGitFile_missing_file_witness :
  ∃ w',
    RevGitFile (env_const true true) "/b/overlay/make.conf" "http://host/v1/" 5
      "PORTAGE_BINHOST" world_with_overlay_dir = (inl IOError, w') ∧
    files w' = files world_with_overlay_dir.
Proof.
  destruct (RevGitFile_missing_file (env_const true true) (fun _ _ _ => eq_refl)
              "/b/overlay/make.conf" "http://host/v1/" 5 "PORTAGE_BINHOST"
              world_with_overlay_dir)
    as (w' & Hrun & Hfiles & _).
  - reflexivity.
  - discriminate.
  - reflexivity.
  - vm_compute. reflexivity.
  - vm_compute. reflexivity.
  - apply lookup_empty.
  - exists w'. split; [exact Hrun|exact Hfiles].
Defined.

Lemma main_usage_witness :
  main (binpkg := binpkg_example) (env_const true true) options_no_upload empty_world =
    (inl (SystemExit 1),
     mkWorld ∅ ∅ "/" (<[("BOTO_CONFIG" : str) := _BOTO_CONFIG]> ∅) ∅ []).
Proof.
  apply (main_usage (binpkg := binpkg_example) (env_const true true)
           options_no_upload empty_world).
  right. reflexivity.
Defined.

Lemma main_without_target_witness :
  main (binpkg := binpkg_example) (env_const true true) options_no_target empty_world =
    (inr tt,
     mkWorld ∅ ∅ "/" (<[("BOTO_CONFIG" : str) := _BOTO_CONFIG]> ∅) ∅
       [Fetched "http://old/2"; Fetched "http://old/1"]).
Proof.
  apply (main_without_target (binpkg := binpkg_example) (env_const true true)
           options_no_target empty_world); reflexivity.
Defined.

Lemma UpdateLocalFile_line_count_witness :
  length (file_lines
            (UpdateLocalFile_text make_conf_example "http://host/v1/" "PORTAGE_BINHOST")) =
  (length (file_lines make_conf_example) + 0)%nat.
Proof.
  apply (UpdateLocalFile_line_count make_conf_example "PORTAGE_BINHOST" "http://host/v1/");
    compute_done.
Defined.

(** A file that is created in a directory that is made: the default line,
    then the line of the key, which is not quoted as the key was absent. *)
Lemma UpdateBinhostConfFile_writes_witness :
  ∃ r w',
    UpdateBinhostConfFile (env_const true true) "/b/binhost/host/amd64.conf"
      "PORTAGE_BINHOST" "http://host/v1/" empty_world = (r, w') ∧
    files w' !! ("/b/binhost/host/amd64.conf" : str) =
      Some (text ["FULL_BINHOST=" ++ quoted "$PORTAGE_BINHOST";
                  "PORTAGE_BINHOST=http://host/v1/" : str]).
Proof.
  destruct (UpdateBinhostConfFile_writes (env_const true true)
              "/b/binhost/host/amd64.conf" "PORTAGE_BINHOST" "http://host/v1/"
              empty_world) as (r & w' & Hrun & Hfiles & _).
  - reflexivity.
  - apply not_elem_of_empty.
  - intros d rest _. apply lookup_empty.
  - exists r, w'. split; [exact Hrun|]. rewrite Hfiles. apply lookup_insert_eq.
Defined.

(** A file that is created: the default line, then the line of the key,
    which is not quoted as the key was absent. *)
Example UpdateBinhostConfFile_creates :
  files (UpdateBinhostConfFile (env_const true true) "/b/binhost/host/amd64.conf"
           "PORTAGE_BINHOST" "http://host/v1/" empty_world).2
    !! ("/b/binhost/host/amd64.conf" : str) =
  Some (text ["FULL_BINHOST=" ++ quoted "$PORTAGE_BINHOST";
              "PORTAGE_BINHOST=http://host/v1/" : str]).
Proof. vm_compute. reflexivity. Qed.
